(** * WPPConnect: session registry and host-layer login sequencer

    A shallow embedding of
    - [src/controllers/sessionmanager.ts]: [getSessionNames],
      [initAllSessions] and the module-level [sessionArray];
    - the [HostLayer] class: the auto-close timer ([startAutoClose],
      [cancelAutoClose], [tryAutoClose]), [getQrCode],
      [waitForQrCodeScan], [waitForInChat], [waitForPageLoad] and
      [waitForLogin].

    JavaScript objects used as string-keyed maps are [gmap string _];
    asynchronous code is modelled by what the event loop does at each
    suspension point: the answers of the page probes and the callbacks
    that run while the caller is suspended are inputs of the model. *)

From stdpp Require Import gmap strings list.
From Stdlib Require Import ZArith Ascii.

Open Scope string_scope.
Open Scope list_scope.
Open Scope nat_scope.
Open Scope stdpp_scope.

(** ** Values shared by both files *)

(** Values thrown by the code or by a collaborator. *)
Inductive Thrown :=
| ThrowStr (reason : string)      (* [throw 'some text'] *)
| TypeError (what : string)       (* raised by the runtime itself *)
| RangeError (what : string)      (* raised by the runtime itself *)
| Rejection (code : string).      (* the reason a collaborator rejected with *)

(** How an [await]ed collaborator promise settles. *)
Inductive Probe (A : Type) :=
| Resolves (a : A)
| Rejects (code : string).
Arguments Resolves {A} a.
Arguments Rejects {A} code.

(** [p.catch(() => fallback)] *)
Definition catch {A} (p : Probe A) (fallback : A) : A :=
  match p with
  | Resolves a => a
  | Rejects _ => fallback
  end.

(** ** [String.prototype.replace] with a string pattern

    Only the first occurrence of the pattern is replaced; the replacement
    text used by the code is the empty string, which has no [$] escapes. *)

Fixpoint skip (n : nat) (s : string) : string :=
  match n, s with
  | S n', String _ s' => skip n' s'
  | _, _ => s
  end.

Fixpoint replace (pat rep s : string) : string :=
  if String.prefix pat s then rep +:+ skip (String.length pat) s
  else match s with
       | EmptyString => EmptyString
       | String c s' => String c (replace pat rep s')
       end.

(** ** The session registry: [sessionmanager.ts] *)

Module SessionManager.

(** The values an options object holds. *)
Inductive Value :=
| VUndefined
| VStr (s : string)
| VNum (z : Z)
| VBool (b : bool)
| VLogger (sink : nat)
| VCallback (id : nat).

(** [CreateOptions]: an object literal, keyed by property name. *)
Abbreviation CreateOptions := (gmap string Value).

(** [{ ...a, ...b }]: the properties of [b] override those of [a];
    spreading [undefined] adds nothing. *)
Definition spread (a : CreateOptions) (b : option CreateOptions) : CreateOptions :=
  default ∅ b ∪ a.

(** The session handle built by [create]; it remembers the session name
    it was built for. *)
Record Whatsapp := { wa_session : string }.

(** [sessionArray]: an array object used as a map from session name to
    handle. The map holds the handles this module has stored: [reg !! name]
    is the handle that [sessionArray[name]] reads as. *)
Abbreviation Registry := (gmap string Whatsapp).

(** One line written by [logger.error(msg, e)]. *)
Record LogLine := { log_sink : nat; log_msg : string; log_err : Thrown }.

(** What an [async] function has done when the caller looks at it:
    returned, thrown, or still waiting for promises that never settled. *)
Inductive Completion (A : Type) :=
| Returns (a : A)
| Throws (e : Thrown)
| Pending.
Arguments Returns {A} a.
Arguments Throws {A} e.
Arguments Pending {A}.

(** [sessionArray[key] = w]. [sessionArray] is an [Array]: its [length]
    only takes a number, so storing a handle under the name [length] raises
    a [RangeError] and stores nothing. An index such as [0] is stored as an
    element and every other name as a property (the array's own length,
    which this changes, is not part of the registry); the name [__proto__]
    makes the handle the array's prototype, which is what
    [sessionArray['__proto__']] then reads as. *)
Definition assign (key : string) (w : Whatsapp) (sessionArray : Registry)
  : Completion Registry :=
  if bool_decide (key = "length") then Throws (RangeError "Invalid array length")
  else Returns (<[key := w]> sessionArray).

(** The [create] collaborator of [./initializer]. It receives a reference
    to the options object: [at_call] is what the object holds while the
    synchronous part of [create] runs, [on_resume] what it holds once
    [create] resumes after its first suspension. *)
Definition Creator := CreateOptions → CreateOptions → Probe Whatsapp.

Section WithEnvironment.

(** [defaultOptions] of [../config/create-config]. *)
Variable defaultOptions : CreateOptions.
(** [path.resolve(__dirname, '..', '..', folder)]. *)
Variable resolve : string → string.
(** [util.promisify(fs.readdir)] on the current file system. *)
Variable readdir : string → Probe (list string).
(** The construction collaborator. *)
Variable create : Creator.

(** The body of the [try] block of [getSessionNames]: [path.resolve]
    throws on an argument that is not a string. *)
Definition readTokens : Completion (list string) :=
  match defaultOptions !! "folderNameToken" with
  | Some (VStr folder) =>
      match readdir (resolve folder) with
      | Resolves sessions =>
          Returns ((λ m, replace ".data.json" EmptyString m) <$> sessions)
      | Rejects code => Throws (Rejection code)
      end
  | _ => Throws (TypeError "The paths[3] argument must be of type string")
  end.

(** [getSessionNames(options)]: the value returned ([None] is
    [undefined]) and the lines logged. *)
Definition getSessionNames (options : option CreateOptions)
  : Completion (option (list string)) * list LogLine :=
  let mergedOptions := spread defaultOptions options in
  let logger := mergedOptions !! "logger" in
  match readTokens with
  | Returns names => (Returns (Some names), [])
  | Pending => (Pending, [])
  | Throws e =>
      match logger with
      | Some (VLogger sink) =>
          (Returns None,
           [ {| log_sink := sink; log_msg := "Error getAllTokens() -> "; log_err := e |} ])
      | _ => (Throws (TypeError "Cannot read properties of undefined (reading 'error')"), [])
      end
  end.

(** One construction started by the [map] callback of
    [initAllSessions]. *)
Record Construction := {
  c_session : string;          (* the callback's own [session] *)
  c_at_call : CreateOptions;   (* [mergedOptions] when [create] is called *)
}.

(** The synchronous fan-out [allSessionsNames.map(async (session) => ...)]:
    every callback runs up to its [await], so all the assignments to the
    one [mergedOptions] object and all the calls of [create] happen before
    any construction resumes. Returns the calls and the object as it is
    left. *)
Fixpoint fanOut (mergedOptions : CreateOptions) (names : list string)
  : list Construction * CreateOptions :=
  match names with
  | [] => ([], mergedOptions)
  | session :: rest =>
      let mergedOptions := <["session" := VStr session]> mergedOptions in
      let call := {| c_session := session; c_at_call := mergedOptions |} in
      let '(calls, final) := fanOut mergedOptions rest in
      (call :: calls, final)
  end.

(** The promise [create] returned for a call. *)
Definition settlement (final : CreateOptions) (c : Construction) : Probe Whatsapp :=
  create (c_at_call c) final.

(** The state of [await Promise.all(promises)] and of [sessionArray]
    while the constructions settle. *)
Record Gather := {
  g_registry : Registry;
  g_settled : gset nat;                 (* callbacks that have finished *)
  g_unresolved : nat;                   (* promises [Promise.all] waits for *)
  g_all : Completion unit;              (* the promise of [Promise.all] *)
}.

Definition gatherStart (sessionArray : Registry) (n : nat) : Gather :=
  {| g_registry := sessionArray;
     g_settled := ∅;
     g_unresolved := n;
     g_all := if decide (n = 0) then Returns tt else Pending |}.

(** What the [map] callback of a call does once its construction has
    settled: [sessionArray[session] = await create(mergedOptions)] stores
    the handle, or raises what [create] rejected with or what the store
    raises. *)
Definition finish (final : CreateOptions) (c : Construction) (sessionArray : Registry)
  : Completion Registry :=
  match settlement final c with
  | Resolves w => assign (c_session c) w sessionArray
  | Rejects code => Throws (Rejection code)
  end.

(** The construction of callback [i] settles. When the callback stores the
    handle under its own [session], its promise resolves; when [create]
    rejected or the store raises, the callback's promise rejects, and
    [Promise.all] rejects unless it has settled already. *)
Definition settle (calls : list Construction) (final : CreateOptions)
    (g : Gather) (i : nat) : Gather :=
  if decide (i ∈ g_settled g) then g
  else match calls !! i with
       | None => g
       | Some c =>
           match finish final c (g_registry g) with
           | Returns registry =>
               let left := pred (g_unresolved g) in
               {| g_registry := registry;
                  g_settled := {[i]} ∪ g_settled g;
                  g_unresolved := left;
                  g_all := match g_all g with
                           | Pending => if decide (left = 0) then Returns tt else Pending
                           | done => done
                           end |}
           | Throws e =>
               {| g_registry := g_registry g;
                  g_settled := {[i]} ∪ g_settled g;
                  g_unresolved := g_unresolved g;
                  g_all := match g_all g with
                           | Pending => Throws e
                           | done => done
                           end |}
           | Pending => g
           end
       end.

(** [initAllSessions(options)] on the registry [sessionArray], where
    [schedule] is the order in which the event loop settles the
    constructions (by position in the list of names). The result holds
    what the caller of [initAllSessions] gets, the registry as the module
    is left with once the schedule has run, and the lines logged. *)
Definition initAllSessions (options : option CreateOptions)
    (sessionArray : Registry) (schedule : list nat)
  : Completion Registry * Registry * list LogLine :=
  let mergedOptions := spread defaultOptions options in
  match getSessionNames (Some mergedOptions) with
  | (Returns (Some allSessionsNames), logs) =>
      let '(calls, final) := fanOut mergedOptions allSessionsNames in
      let g := foldl (settle calls final)
                     (gatherStart sessionArray (length calls)) schedule in
      (match g_all g with
       | Returns _ => Returns (g_registry g)
       | Throws e => Throws e
       | Pending => Pending
       end, g_registry g, logs)
  | (Returns None, logs) =>
      (Throws (TypeError "Cannot read properties of undefined (reading 'map')"),
       sessionArray, logs)
  | (Throws e, logs) => (Throws e, sessionArray, logs)
  | (Pending, logs) => (Pending, sessionArray, logs)
  end.

End WithEnvironment.

(** [sessionArray[createOption.session] = await create(createOption)]: a
    string names its own property, a missing [session] the property
    ["undefined"]; what the engine makes of any other value is a parameter. *)
Section CreateSession.
Variable create : Creator.
Variable toPropertyKey : Value → string.

Definition sessionKey (createOption : CreateOptions) : string :=
  match createOption !! "session" with
  | Some (VStr session) => session
  | Some VUndefined | None => "undefined"
  | Some v => toPropertyKey v
  end.

(** [createSession(createOption)] on the registry [sessionArray]: what the
    caller gets and the registry afterwards. The value returned is the
    value of the assignment, so nothing is returned when the store raises. *)
Definition createSession (createOption : CreateOptions) (sessionArray : Registry)
  : Completion Whatsapp * Registry :=
  match create createOption createOption with
  | Resolves w =>
      match assign (sessionKey createOption) w sessionArray with
      | Returns registry => (Returns w, registry)
      | Throws e => (Throws e, sessionArray)
      | Pending => (Pending, sessionArray)
      end
  | Rejects code => (Throws (Rejection code), sessionArray)
  end.

End CreateSession.

End SessionManager.

(** ** The login sequencer: [HostLayer] *)

Module HostLayer.

Inductive LogLevel := Error | Warn | Info | Http | Verbose.

(** The text of a log line; template literals keep their arguments. *)
Inductive Message :=
| Text (message : string)
| AutoCloseConfigured (seconds : Z)        (* `Auto close configured to ${seconds}s` *)
| AutoCloseRemain (remain : Z)             (* `Auto close remain: ${remain}s` *)
| WaitingScanQR (attempt : nat) (qr code : string)
    (* `Waiting for QRCode Scan (Attempt ${attempt})...:\n${qr}`, { code } *)
| WaitingScan (attempt : nat).             (* `Waiting for QRCode Scan: Attempt ${attempt}` *)

(** What the sequencer does to the outside, in the order it does it. The
    callbacks' last argument is always [this.session] and is left out. *)
Inductive Event :=
| Log (level : LogLevel) (message : Message)
| StatusFind (statusGet : string)
| CatchQR (qrCode asciiQR : string) (attempt : nat) (urlCode : string)
| PageClose.                               (* [this.page.close()] *)

(** An interval registered with the runtime by [setInterval]; [remain] is
    the variable its callback closes over. *)
Record Interval := { handle : nat; remain : Z }.

(** A [HostLayer] object together with the part of the runtime it acts
    on: the active intervals and the page. *)
Record Host := {
  autoClose : Z;                       (* [this.options.autoClose], in ms *)
  logQR : bool;                        (* [this.options.logQR] *)
  autoCloseInterval : option nat;      (* [null] or an interval handle *)
  statusFind : bool;                   (* is [this.statusFind] a callback? *)
  intervals : list Interval;           (* set and not yet cleared *)
  nextHandle : nat;                    (* the handle [setInterval] gives next *)
  isClosed : bool;                     (* [this.page.isClosed()] *)
  trace : list Event;
}.

(** A host as the constructor leaves it. *)
Definition newHost (autoClose : Z) (logQR : bool) : Host :=
  {| autoClose := autoClose; logQR := logQR; autoCloseInterval := None;
     statusFind := false; intervals := []; nextHandle := 0;
     isClosed := false; trace := [Log Info (Text "Initializing...")] |}.

Definition emit (e : Event) (h : Host) : Host :=
  {| autoClose := autoClose h; logQR := logQR h;
     autoCloseInterval := autoCloseInterval h; statusFind := statusFind h;
     intervals := intervals h; nextHandle := nextHandle h;
     isClosed := isClosed h; trace := trace h ++ [e] |}.

Definition log (level : LogLevel) (m : Message) : Host → Host := emit (Log level m).

(** [cb && cb(statusGet, this.session)] *)
Definition notify (cb : bool) (statusGet : string) (h : Host) : Host :=
  if cb then emit (StatusFind statusGet) h else h.

Definition setStatusFind (cb : bool) (h : Host) : Host :=
  {| autoClose := autoClose h; logQR := logQR h;
     autoCloseInterval := autoCloseInterval h; statusFind := cb;
     intervals := intervals h; nextHandle := nextHandle h;
     isClosed := isClosed h; trace := trace h |}.

(** [clearInterval(id)]; clearing [null] or a cleared handle does nothing. *)
Definition clearInterval (id : option nat) (ivs : list Interval) : list Interval :=
  match id with
  | None => ivs
  | Some i => filter (λ iv, handle iv ≠ i) ivs
  end.

Definition cancelAutoClose (h : Host) : Host :=
  {| autoClose := autoClose h; logQR := logQR h;
     autoCloseInterval := None; statusFind := statusFind h;
     intervals := clearInterval (autoCloseInterval h) (intervals h);
     nextHandle := nextHandle h;
     isClosed := isClosed h; trace := trace h |}.

(** [Number.MAX_SAFE_INTEGER], [2^53 - 1]: up to it every integer is a
    double. *)
Definition MAX_SAFE_INTEGER : Z := 9007199254740991.

(** [Math.round(ms / 1000)] for a whole number of milliseconds between 0
    and [MAX_SAFE_INTEGER]: halves round towards plus infinity. The code
    computes on doubles. In that range [ms] is a double, the quotient is
    below [2^44], where doubles are at most [2^-9] apart, and [ms / 1000]
    is a half-integer or at least [1/1000] away from one, so the rounded
    quotient lies on the same side of the half-integers as the exact one
    and [Math.round] gives the integer computed here; the countdown's
    [remain -= 1] is exact as well. Above that range the doubles differ
    from this definition, which is then not the code's. *)
Definition roundSeconds (ms : Z) : Z := (ms + 500) `div` 1000.

Definition startAutoClose (h : Host) : Host :=
  if bool_decide (0 < autoClose h)%Z && bool_decide (autoCloseInterval h = None) then
    let seconds := roundSeconds (autoClose h) in
    let h := log Info (AutoCloseConfigured seconds) h in
    {| autoClose := autoClose h; logQR := logQR h;
       autoCloseInterval := Some (nextHandle h); statusFind := statusFind h;
       intervals := intervals h ++ [ {| handle := nextHandle h; remain := seconds |} ];
       nextHandle := S (nextHandle h);
       isClosed := isClosed h; trace := trace h |}
  else h.

Definition tryAutoClose (h : Host) : Host :=
  let h := if bool_decide (autoCloseInterval h = None) then h else cancelAutoClose h in
  if bool_decide (0 < autoClose h)%Z && bool_decide (autoCloseInterval h = None)
     && negb (isClosed h) then
    let h := log Info (Text "Closing the page") h in
    let h := notify (statusFind h) "autocloseCalled" h in
    emit PageClose h
  else h.

Definition setRemain (id : nat) (r : Z) (h : Host) : Host :=
  {| autoClose := autoClose h; logQR := logQR h;
     autoCloseInterval := autoCloseInterval h; statusFind := statusFind h;
     intervals := (λ iv, if bool_decide (handle iv = id)
                          then {| handle := id; remain := r |} else iv) <$> intervals h;
     nextHandle := nextHandle h;
     isClosed := isClosed h; trace := trace h |}.

(** The callback given to [setInterval] in [startAutoClose], run for the
    interval [id]. *)
Definition intervalCallback (id : nat) (remain0 : Z) (h : Host) : Host :=
  if isClosed h then cancelAutoClose h
  else
    let remain := (remain0 - 1)%Z in
    let h := setRemain id remain h in
    let h := if bool_decide (Z.rem remain 10 = 0%Z) || bool_decide (remain ≤ 5)%Z
             then log Http (AutoCloseRemain remain) h else h in
    if bool_decide (remain ≤ 0)%Z then tryAutoClose h else h.

(** What the event loop may run while the sequencer is suspended. *)
Inductive Background :=
| IntervalFires (id : nat)     (* one second has passed for interval [id] *)
| PageClosed.                  (* the page's 'close' event *)

Definition background (b : Background) (h : Host) : Host :=
  match b with
  | IntervalFires id =>
      match list_find (λ iv, handle iv = id) (intervals h) with
      | Some (_, iv) => intervalCallback id (remain iv) h
      | None => h           (* a cleared interval does not fire *)
      end
  | PageClosed =>
      let h := {| autoClose := autoClose h; logQR := logQR h;
                  autoCloseInterval := autoCloseInterval h; statusFind := statusFind h;
                  intervals := intervals h; nextHandle := nextHandle h;
                  isClosed := true; trace := trace h |} in
      log Error (Text "Page Closed") (cancelAutoClose h)
  end.

Definition suspend (bs : list Background) (h : Host) : Host :=
  foldl (λ h b, background b h) h bs.

(** *** Asynchronous methods

    A method is a function of the host that runs to a value, to a thrown
    value, or runs out of answers while it is still polling. *)

Inductive Result (A : Type) :=
| Val (a : A)
| Exc (e : Thrown)
| Starved.
Arguments Val {A} a.
Arguments Exc {A} e.
Arguments Starved {A}.

Definition Task (A : Type) := Host → Host * Result A.

Definition ret {A} (a : A) : Task A := λ h, (h, Val a).
Definition throw {A} (e : Thrown) : Task A := λ h, (h, Exc e).
Definition starved {A} : Task A := λ h, (h, Starved).
Definition bind {A B} (m : Task A) (k : A → Task B) : Task B :=
  λ h, match m h with
       | (h', Val a) => k a h'
       | (h', Exc e) => (h', Exc e)
       | (h', Starved) => (h', Starved)
       end.
Definition act (f : Host → Host) : Task unit := λ h, (f h, Val tt).

#[export] Instance Task_ret : MRet Task := @ret.
#[export] Instance Task_bind : MBind Task := λ A B k m, bind m k.

(** An answer of the page, with what ran in the background while the
    sequencer waited for it. *)
Definition Awaited (A : Type) : Type := list Background * A.

(** [await p] *)
Definition await {A} (p : Awaited (Probe A)) : Task A :=
  λ h, let h := suspend p.1 h in
       match p.2 with
       | Resolves a => (h, Val a)
       | Rejects code => (h, Exc (Rejection code))
       end.

(** [await p.catch(() => fallback)] *)
Definition awaitCatch {A} (p : Awaited (Probe A)) (fallback : A) : Task A :=
  λ h, (suspend p.1 h, Val (catch p.2 fallback)).

(** [await sleep(200)] *)
Definition sleep (bs : list Background) : Task unit := act (suspend bs).

(** [ScrapQrcode] of [../model/qrcode]; a missing [urlCode] is [None]. *)
Record ScrapQrcode := { base64Image : string; urlCode : option string }.

(** JavaScript truthiness of the values the probes give. *)
Definition truthy (v : option bool) : bool :=
  match v with Some true => true | _ => false end.

Definition truthyCode (q : option ScrapQrcode) : option (ScrapQrcode * string) :=
  match q with
  | Some r =>
      match urlCode r with
      | Some u => if bool_decide (u = EmptyString) then None else Some (r, u)
      | None => None
      end
  | None => None
  end.

(** The page's answers during one turn of the scan loop. *)
Record ScanRound := {
  needsToScan : Awaited (Probe (option bool));
  scrapeImg : Awaited (Probe (option ScrapQrcode));
  retrieveQR : Awaited (Probe (option ScrapQrcode));
  duringAscii : list Background;       (* while [asciiQr] is awaited *)
  duringSleep : list Background;       (* while [sleep(200)] is awaited *)
}.

(** The page's answers during one run of [waitForLogin]. *)
Record Page := {
  initialStartup : list Background;    (* [waitForFunction(...)] *)
  getInterfaceStatus : list Background;
  isAuthenticated : Awaited (Probe (option bool));
  scanRounds : list ScanRound;
  settleQr : list Background;          (* [sleep(200)] after the scan loop *)
  isAuthenticatedAgain : Awaited (Probe (option bool));
  settleChat : list Background;        (* [sleep(200)] before [waitForInChat] *)
  isInsideChat : Awaited (Probe (option bool));
  insideChatPolls : list (list Background * Awaited (Probe (option bool)));
}.

Section WithAscii.

(** [asciiQr] of [../../controllers/auth]: the text form of a code. *)
Variable asciiQr : string → string.

Definition getQrCode (r : ScanRound) : Task (option ScrapQrcode) :=
  qrResult ← awaitCatch (scrapeImg r) None;
  match truthyCode qrResult with
  | None => awaitCatch (retrieveQR r) None
  | Some _ => ret qrResult
  end.

(** The [while (true)] loop of [waitForQrCodeScan] with its two local
    variables; it gives back their last values. *)
Fixpoint scanLoop (catchQR : bool) (rounds : list ScanRound)
    (urlCode : option string) (attempt : nat) : Task (option string * nat) :=
  match rounds with
  | [] => starved
  | r :: rounds =>
      needsScan ← awaitCatch (needsToScan r) None;
      if negb (truthy needsScan) then ret (urlCode, attempt)
      else
        result ← getQrCode r;
        match truthyCode result with
        | None => ret (urlCode, attempt)
        | Some (result, code) =>
            if bool_decide (urlCode = Some code) then
              sleep (duringSleep r) ;;
              scanLoop catchQR rounds urlCode attempt
            else
              let urlCode := Some code in
              let attempt := S attempt in
              qr ← (λ h, if logQR h || catchQR
                         then (suspend (duringAscii r) h, Val (asciiQr code))
                         else (h, Val EmptyString)) : Task string;
              act (λ h, if logQR h
                        then log Info (WaitingScanQR attempt qr code) h
                        else log Verbose (WaitingScan attempt) h) ;;
              act (λ h, if catchQR
                        then emit (CatchQR (base64Image result) qr attempt code) h
                        else h) ;;
              sleep (duringSleep r) ;;
              scanLoop catchQR rounds urlCode attempt
        end
  end.

Definition waitForQrCodeScan (catchQR : bool) (rounds : list ScanRound) : Task unit :=
  scanLoop catchQR rounds None 0 ;; ret tt.

(** The [while (inChat === false)] loop of [waitForInChat]. *)
Fixpoint inChatLoop (inChat : option bool)
    (polls : list (list Background * Awaited (Probe (option bool))))
  : Task (option bool) :=
  if bool_decide (inChat = Some false) then
    match polls with
    | [] => starved
    | (during, answer) :: polls =>
        sleep during ;;
        inChat ← await answer;
        inChatLoop inChat polls
    end
  else ret inChat.

Definition waitForInChat (p : Page) : Task (option bool) :=
  inChat ← await (isInsideChat p);
  inChatLoop inChat (insideChatPolls p).

Definition waitForPageLoad (p : Page) : Task unit :=
  sleep (initialStartup p) ;;
  sleep (getInterfaceStatus p).

(** The first [if ... else if] of [waitForLogin]: the scan branch, which
    assigns [authenticated] again, and the already-logged-in branch. *)
Definition loginOrScan (catchQR statusFind : bool) (p : Page)
    (authenticated : option bool) : Task (option bool) :=
  if bool_decide (authenticated = Some false) then
    act (log Http (Text "Waiting for QRCode Scan...")) ;;
    act (notify statusFind "notLogged") ;;
    waitForQrCodeScan catchQR (scanRounds p) ;;
    act (log Http (Text "Checking QRCode status...")) ;;
    sleep (settleQr p) ;;
    authenticated ← awaitCatch (isAuthenticatedAgain p) None;
    match authenticated with
    | None =>
        act (log Warn (Text "Failed to authenticate")) ;;
        act (notify statusFind "qrReadError") ;;
        ret authenticated
    | Some true =>
        act (log Http (Text "QRCode Success")) ;;
        act (notify statusFind "qrReadSuccess") ;;
        ret authenticated
    | Some false =>
        act (log Warn (Text "QRCode Fail")) ;;
        act (notify statusFind "qrReadFail") ;;
        act tryAutoClose ;;
        throw (ThrowStr "Failed to read the QRCode")
    end
  else if bool_decide (authenticated = Some true) then
    act (log Http (Text "Authenticated")) ;;
    act (notify statusFind "isLogged") ;;
    ret authenticated
  else ret authenticated.

(** The rest of [waitForLogin], from [if (authenticated === true)] on. *)
Definition finishLogin (statusFind : bool) (p : Page)
    (authenticated : option bool) : Task bool :=
  if bool_decide (authenticated = Some true) then
    act cancelAutoClose ;;
    act startAutoClose ;;
    sleep (settleChat p) ;;
    act (log Http (Text "Checking phone is connected...")) ;;
    inChat ← waitForInChat p;
    if negb (truthy inChat) then
      act (log Warn (Text "Phone not connected")) ;;
      act (notify statusFind "phoneNotConnected") ;;
      act tryAutoClose ;;
      throw (ThrowStr "Phone not connected")
    else
      act cancelAutoClose ;;
      act (log Http (Text "Connected")) ;;
      act (notify statusFind "inChat") ;;
      ret true
  else if bool_decide (authenticated = Some false) then
    act tryAutoClose ;;
    act (log Warn (Text "Not logged")) ;;
    throw (ThrowStr "Not logged")
  else
    act tryAutoClose ;;
    act (log Error (Text "Unknow error")) ;;
    throw (ThrowStr "Unknow error").

Definition waitForLogin (catchQR statusFind : bool) (p : Page) : Task bool :=
  act (setStatusFind statusFind) ;;
  act (log Http (Text "Waiting page load")) ;;
  waitForPageLoad p ;;
  act (log Http (Text "Checking is logged...")) ;;
  authenticated ← awaitCatch (isAuthenticated p) None;
  act startAutoClose ;;
  authenticated ← loginOrScan catchQR statusFind p authenticated;
  finishLogin statusFind p authenticated.

End WithAscii.

(** *** Reading a trace *)

(** The status events of a trace, oldest first. *)
Definition statuses (t : list Event) : list string :=
  omap (λ e, match e with StatusFind s => Some s | _ => None end) t.

(** The calls of the QR observer in a trace, oldest first, each with its
    arguments [(qrCode, asciiQR, attempt, urlCode)]. *)
Definition qrCalls (t : list Event) : list (string * string * nat * string) :=
  omap (λ e, match e with CatchQR i a n u => Some (i, a, n, u) | _ => None end) t.

(** How often the page was asked to close. *)
Definition closeCalls (t : list Event) : nat :=
  length (omap (λ e, match e with PageClose => Some tt | _ => None end) t).

End HostLayer.

(** ** Notions used to state the properties *)

Import SessionManager HostLayer.

(** *** Registry *)

Section OneRejection.
Variable create : Creator.

(** Exactly the construction at position [i0] rejects, with [code]. *)
Definition oneRejects (calls : list Construction) (final : CreateOptions)
    (i0 : nat) (code : string) : Prop :=
  (∃ c, calls !! i0 = Some c ∧ settlement create final c = Rejects code) ∧
  (∀ j c, j ≠ i0 → calls !! j = Some c → ∃ w, settlement create final c = Resolves w).

End OneRejection.

(** The sessions of the calls can all be stored in the array. *)
Definition storable (calls : list Construction) : Prop :=
  ∀ j c, calls !! j = Some c → c_session c ≠ "length".

(** What holds of [Promise.all] and the registry while the constructions
    settle, when exactly the one at [i0] rejects. *)
Definition gatherInv (calls : list Construction) (i0 : nat) (code : string)
    (g : Gather) : Prop :=
  g_settled g ⊆ set_seq 0 (length calls) ∧
  g_unresolved g + size (g_settled g ∖ {[i0]}) = length calls ∧
  g_all g = (if decide (i0 ∈ g_settled g) then Throws (Rejection code) else Pending) ∧
  (∀ j c, j ∈ g_settled g → j ≠ i0 → calls !! j = Some c →
          is_Some (g_registry g !! c_session c)).

(** *** Auto-close timer *)

(** At most one interval is active, and it is the one the host holds. *)
Definition timerInv (h : Host) : Prop :=
  match autoCloseInterval h with
  | None => intervals h = []
  | Some id => ∃ r, intervals h = [ {| handle := id; remain := r |} ]
  end.

(** The calls a test harness, the sequencer or the event loop can make on
    the timer of a host. *)
Inductive TimerOp :=
| Start
| Cancel
| TryClose
| Elapse (b : Background).

Definition timerOp (h : Host) (op : TimerOp) : Host :=
  match op with
  | Start => startAutoClose h
  | Cancel => cancelAutoClose h
  | TryClose => tryAutoClose h
  | Elapse b => background b h
  end.

(** How often [autocloseCalled] was reported. *)
Definition autocloseCalls (t : list Event) : nat :=
  length (filter (λ s, s = "autocloseCalled") (statuses t)).

(** The events the timer and the page's 'close' handler can add to a trace
    of a host configured with [autoClose = a]. *)
Definition timerEvent (a : Z) (e : Event) : Prop :=
  match e with
  | Log _ _ => True
  | StatusFind s => s = "autocloseCalled" ∧ (0 < a)%Z
  | PageClose => (0 < a)%Z
  | CatchQR _ _ _ _ => False
  end.

(** [h'] comes from [h] by timer activity only. *)
Definition timerStep (h h' : Host) : Prop :=
  autoClose h' = autoClose h ∧ logQR h' = logQR h ∧ statusFind h' = statusFind h ∧
  ∃ es, trace h' = trace h ++ es ∧ Forall (timerEvent (autoClose h)) es.

(** What [tryAutoClose] adds to the trace when it closes the page. *)
Definition closing (cb : bool) : list Event :=
  [Log Info (Text "Closing the page")]
    ++ (if cb then [StatusFind "autocloseCalled"] else []) ++ [PageClose].

(** A step made of background activity only. *)
Definition quietStep (h h' : Host) : Prop :=
  timerStep h h' ∧ (timerInv h → timerInv h').

(** *** Scan loop *)

(** What [getQrCode] gives in a round. *)
Definition fetched (r : ScanRound) : option ScrapQrcode :=
  let qrResult := catch (scrapeImg r).2 None in
  match truthyCode qrResult with
  | None => catch (retrieveQR r).2 None
  | Some _ => qrResult
  end.

(** The code seen in a round after which the loop goes on: the page still
    needs a scan and a code could be fetched. *)
Definition seen (r : ScanRound) : option (ScrapQrcode * string) :=
  if truthy (catch (needsToScan r).2 None) then truthyCode (fetched r) else None.

(** The codes fetched until the loop is left. *)
Fixpoint observed (rounds : list ScanRound) : list (ScrapQrcode * string) :=
  match rounds with
  | [] => []
  | r :: rounds =>
      match seen r with
      | Some q => q :: observed rounds
      | None => []
      end
  end.

(** Is there a round in which the loop is left? *)
Fixpoint scanEnds (rounds : list ScanRound) : bool :=
  match rounds with
  | [] => false
  | r :: rounds =>
      match seen r with
      | Some _ => scanEnds rounds
      | None => true
      end
  end.

Section AttemptCounter.
Variable asciiQr : string → string.

(** The rule for the attempt counter: it advances exactly when the code
    fetched differs from the one seen before, and the observer is called
    once each time it advances. *)
Fixpoint expectedCalls (previous : option string) (attempt : nat)
    (codes : list (ScrapQrcode * string)) : list (string * string * nat * string) :=
  match codes with
  | [] => []
  | (q, code) :: codes =>
      if decide (previous = Some code) then expectedCalls previous attempt codes
      else (base64Image q, asciiQr code, S attempt, code)
             :: expectedCalls (Some code) (S attempt) codes
  end.

(** The loop's two local variables after the codes [codes]. *)
Fixpoint expectedCounter (previous : option string) (attempt : nat)
    (codes : list (ScrapQrcode * string)) : option string * nat :=
  match codes with
  | [] => (previous, attempt)
  | (q, code) :: codes =>
      if decide (previous = Some code) then expectedCounter previous attempt codes
      else expectedCounter (Some code) (S attempt) codes
  end.

End AttemptCounter.

(** *** Login sequence *)

(** The host when the first authentication probe has answered and the
    auto-close timer has been started. *)
Definition beforeLogin (statusFind : bool) (p : Page) (h : Host) : Host :=
  startAutoClose
    (suspend (isAuthenticated p).1
       (log Http (Text "Checking is logged...")
          (suspend (getInterfaceStatus p)
             (suspend (initialStartup p)
                (log Http (Text "Waiting page load") (setStatusFind statusFind h)))))).

(** What [cb && cb(statusGet, session)] adds to the trace. *)
Definition notified (cb : bool) (statusGet : string) : list Event :=
  if cb then [StatusFind statusGet] else [].

(** ** Concrete inputs *)

(** The default options, with the token folder, a logger and a session. *)
Definition tokensDefaults : CreateOptions :=
  {[ "folderNameToken" := VStr "./tokens"; "logger" := VLogger 0; "session" := VStr "session" ]}.

(** The package root is [/app]. *)
Definition tokensResolve (folder : string) : string := "/app/" +:+ folder.

(** A token directory holding the tokens of sessions [a] and [b]. *)
Definition twoTokens (dir : string) : Probe (list string) :=
  if bool_decide (dir = "/app/./tokens") then Resolves ["a.data.json"; "b.data.json"]
  else Rejects "ENOENT".

(** The same directory, next to other directories that hold other tokens. *)
Definition twoTokensAmongOthers (dir : string) : Probe (list string) :=
  if bool_decide (dir = "/app/./tokens") then Resolves ["a.data.json"; "b.data.json"]
  else Resolves ["c.data.json"].

(** No token directory at all. *)
Definition noTokens (dir : string) : Probe (list string) := Rejects "ENOENT".

(** A collaborator that reads [session] from the options only after its
    first suspension. *)
Definition createLate : Creator :=
  λ at_call on_resume,
    match on_resume !! "session" with
    | Some (VStr s) => Resolves {| wa_session := s |}
    | _ => Rejects "no session"
    end.

(** A collaborator that reads [session] as soon as it is called, and fails
    for session [a]. *)
Definition createFailingA : Creator :=
  λ at_call on_resume,
    match at_call !! "session" with
    | Some (VStr s) => if bool_decide (s = "a") then Rejects "boom"
                       else Resolves {| wa_session := s |}
    | _ => Rejects "no session"
    end.

(** A text form of a code. *)
Definition boxed (code : string) : string := "[" +:+ code +:+ "]".

(** A round in which the page shows the QR code [code]. *)
Definition showing (code : string) : ScanRound :=
  {| needsToScan := ([], Resolves (Some true));
     scrapeImg := ([], Resolves (Some {| base64Image := "image of " +:+ code;
                                          urlCode := Some code |}));
     retrieveQR := ([], Rejects "not asked");
     duringAscii := []; duringSleep := [] |}.

(** A round in which the page no longer asks for a scan. *)
Definition scanned : ScanRound :=
  {| needsToScan := ([], Resolves (Some false));
     scrapeImg := ([], Rejects "no code");
     retrieveQR := ([], Rejects "no code");
     duringAscii := []; duringSleep := [] |}.

(** A page that is not logged in, shows one code, and then answers the
    authentication probe with [authenticatedAgain]; the phone is in the chat
    at the second look. *)
Definition scanPage (authenticatedAgain : Probe (option bool)) : Page :=
  {| initialStartup := []; getInterfaceStatus := [];
     isAuthenticated := ([], Resolves (Some false));
     scanRounds := [showing "A"; scanned];
     settleQr := [];
     isAuthenticatedAgain := ([IntervalFires 0], authenticatedAgain);
     settleChat := [];
     isInsideChat := ([], Resolves (Some false));
     insideChatPolls := [([IntervalFires 1], ([], Resolves (Some true)))] |}.

(** ** Further notions

    Used by the properties of the code that follow the ones above. *)

(** *** Registry *)

(** A file name without a dot. *)
Fixpoint dotFree (s : string) : bool :=
  match s with
  | EmptyString => true
  | String c s' => if Ascii.ascii_dec "."%char c then false else dotFree s'
  end.

(** Every construction that has settled so far has fulfilled. *)
Definition gatherFulfilled (calls : list Construction) (g : Gather) : Prop :=
  g_settled g ⊆ set_seq 0 (length calls) ∧
  g_unresolved g + size (g_settled g) = length calls ∧
  g_all g = (if decide (g_unresolved g = 0) then Returns tt else Pending) ∧
  (∀ j c, j ∈ g_settled g → calls !! j = Some c → is_Some (g_registry g !! c_session c)).

(** Where the entries of a registry come from: the registry [reg] it started
    as, or a fulfilled construction for that key. *)
Definition registryFrom (create : Creator) (calls : list Construction)
    (final : CreateOptions) (reg : Registry) (g : Gather) : Prop :=
  ∀ k, g_registry g !! k = reg !! k
       ∨ ∃ c w, c ∈ calls ∧ c_session c = k ∧ settlement create final c = Resolves w
                ∧ g_registry g !! k = Some w.

(** What holds of [Promise.all] while no callback has failed: every
    callback that has finished has stored the handle of its construction. *)
Definition gatherClean (create : Creator) (calls : list Construction)
    (final : CreateOptions) (g : Gather) : Prop :=
  match g_all g with
  | Throws _ => True
  | _ =>
      g_settled g ⊆ set_seq 0 (length calls) ∧
      g_unresolved g + size (g_settled g) = length calls ∧
      g_all g = (if decide (g_unresolved g = 0) then Returns tt else Pending) ∧
      (∀ j c, j ∈ g_settled g → calls !! j = Some c →
              c_session c ≠ "length" ∧ ∃ w, settlement create final c = Resolves w)
  end.

(** *** Auto-close timer *)

(** The tick at which a countdown of [ms] milliseconds closes the page:
    the rounded number of seconds, and the first tick when that is 0. *)
Definition closingTick (ms : Z) : nat := Z.to_nat (Z.max 1 (roundSeconds ms)).

(** [h'] comes from the closed page [h] and has only logged. *)
Definition closedStep (h h' : Host) : Prop :=
  isClosed h' = true ∧
  ∃ es, trace h' = trace h ++ es
        ∧ Forall (λ e, match e with Log _ _ => True | _ => False end) es.

(** *** Login sequence *)

(** The first answer that is not [false], as [waitForInChat] takes it. *)
Fixpoint firstAnswer (answers : list (Probe (option bool))) : Result (option bool) :=
  match answers with
  | [] => Starved
  | Resolves v :: answers =>
      if bool_decide (v = Some false) then firstAnswer answers else Val v
  | Rejects code :: _ => Exc (Rejection code)
  end.

(** The answers of [isInsideChat] during a run, in order. *)
Definition chatAnswers (p : Page) : list (Probe (option bool)) :=
  (isInsideChat p).2 :: ((λ poll, poll.2.2) <$> insideChatPolls p).

(** How a run ends once it is authenticated. *)
Definition chatOutcome (p : Page) : Result bool :=
  match firstAnswer (chatAnswers p) with
  | Val inChat => if truthy inChat then Val true else Exc (ThrowStr "Phone not connected")
  | Exc e => Exc e
  | Starved => Starved
  end.

(** The first [if ... else if] of [waitForLogin] as a table: what
    [authenticated] is afterwards, or how the run has ended. *)
Definition scanOutcome (p : Page) (authenticated : option bool) : Result (option bool) :=
  if bool_decide (authenticated = Some false) then
    if scanEnds (scanRounds p) then
      match catch (isAuthenticatedAgain p).2 None with
      | Some false => Exc (ThrowStr "Failed to read the QRCode")
      | again => Val again
      end
    else Starved
  else Val authenticated.

(** The rest of [waitForLogin] as a table. *)
Definition finishOutcome (p : Page) (authenticated : option bool) : Result bool :=
  match authenticated with
  | Some true => chatOutcome p
  | Some false => Exc (ThrowStr "Not logged")
  | None => Exc (ThrowStr "Unknow error")
  end.

(** How a run of [waitForLogin] ends, as a table of the page's answers. *)
Definition loginOutcome (p : Page) : Result bool :=
  match scanOutcome p (catch (isAuthenticated p).2 None) with
  | Val authenticated => finishOutcome p authenticated
  | Exc e => Exc e
  | Starved => Starved
  end.

Definition scanStatuses (p : Page) (authenticated : option bool) : list string :=
  match authenticated with
  | Some false =>
      "notLogged" ::
      (if scanEnds (scanRounds p) then
         match catch (isAuthenticatedAgain p).2 None with
         | Some true => ["qrReadSuccess"]
         | Some false => ["qrReadFail"]
         | None => ["qrReadError"]
         end
       else [])
  | Some true => ["isLogged"]
  | None => []
  end.

Definition chatStatuses (p : Page) : list string :=
  match firstAnswer (chatAnswers p) with
  | Val inChat => if truthy inChat then ["inChat"] else ["phoneNotConnected"]
  | _ => []
  end.

(** The status events of a run, [autocloseCalled] apart, as a table of the
    page's answers. *)
Definition loginStatuses (p : Page) : list string :=
  scanStatuses p (catch (isAuthenticated p).2 None)
    ++ match scanOutcome p (catch (isAuthenticated p).2 None) with
       | Val (Some true) => chatStatuses p
       | _ => []
       end.

(** No countdown is left. *)
Definition cleared (h : Host) : Prop :=
  autoCloseInterval h = None ∧ intervals h = [].

(** The status events of a trace that come from the sequencer, not from the
    timer. *)
Definition reported (t : list Event) : list string :=
  filter (λ s, s ≠ "autocloseCalled") (statuses t).

(** [h'] comes from [h] by adding events whose sequencer statuses are [ss]
    and whose QR calls are [qs]. *)
Definition emits (ss : list string) (qs : list (string * string * nat * string))
    (h h' : Host) : Prop :=
  ∃ es, trace h' = trace h ++ es ∧ reported es = ss ∧ qrCalls es = qs.

(** The outcomes after which the sequencer has stopped by itself. *)
Definition stops {A} (r : Result A) : Prop :=
  match r with
  | Val _ | Exc (ThrowStr _) => True
  | _ => False
  end.

(** Steps of the sequencer: what they emit and what they keep. *)
Definition seqStep (ss : list string) (qs : list (string * string * nat * string))
    (h h' : Host) : Prop :=
  emits ss qs h h' ∧ (timerInv h → timerInv h').

(** *** Further inputs *)

(** A token directory without entries. *)
Definition emptyTokens (dir : string) : Probe (list string) := Resolves [].

(** A token directory that also holds a file that is not a token. *)
Definition mixedTokens (dir : string) : Probe (list string) :=
  Resolves ["a.data.json"; "notes"].

(** A token directory holding a token named [length]. *)
Definition lengthToken (dir : string) : Probe (list string) :=
  Resolves ["a.data.json"; "length.data.json"].

(** ** Proofs *)

#[local] Set Warnings "-clear-no-such-hyp".

(** Runs the binds and the primitive tasks of a method. *)
Ltac run_task :=
  cbv [mbind Task_bind bind act ret throw starved sleep await awaitCatch mret Task_ret].

(** *** The session registry *)

Section Registry.
Variable defaultOptions : CreateOptions.
Variable resolve : string → string.
Variable readdir : string → Probe (list string).
Variable create : Creator.

Lemma fanOut_length m names : length (fanOut m names).1 = length names.
Proof.
  revert m. induction names as [|s names IH]; intros m; simpl; [done|].
  specialize (IH (<["session":=VStr s]> m)).
  destruct (fanOut _ names) as [calls final]. simpl in *. by rewrite IH.
Qed.

Lemma fanOut_lookup m names j c :
  (fanOut m names).1 !! j = Some c →
  names !! j = Some (c_session c) ∧ c_at_call c !! "session" = Some (VStr (c_session c)).
Proof.
  revert m j. induction names as [|s names IH]; intros m j; simpl; [done|].
  specialize (IH (<["session":=VStr s]> m)).
  destruct (fanOut _ names) as [calls final]. simpl in *.
  destruct j as [|j]; simpl.
  - intros [= <-]. simpl. split; [done|]. apply lookup_insert_eq.
  - apply IH.
Qed.

Lemma fanOut_final m names s :
  last names = Some s → (fanOut m names).2 !! "session" = Some (VStr s).
Proof.
  revert m. induction names as [|s' names IH]; intros m; simpl; [done|].
  specialize (IH (<["session":=VStr s']> m)).
  destruct (fanOut _ names) as [calls final] eqn:E. simpl in *.
  destruct names as [|s'' names].
  - intros [= ->]. simpl in E. injection E as _ <-. apply lookup_insert_eq.
  - exact IH.
Qed.

Lemma finish_fulfilled final c reg w :
  settlement create final c = Resolves w → c_session c ≠ "length" →
  finish create final c reg = Returns (<[c_session c := w]> reg).
Proof.
  intros Hw Hs. unfold finish, assign. rewrite Hw. by rewrite bool_decide_eq_false_2.
Qed.

Lemma finish_rejected final c reg code :
  settlement create final c = Rejects code →
  finish create final c reg = Throws (Rejection code).
Proof. intros Hw. unfold finish. by rewrite Hw. Qed.

Lemma finish_settles final c reg : finish create final c reg ≠ Pending.
Proof.
  unfold finish, assign. destruct (settlement create final c); [|done].
  by case_bool_decide.
Qed.

Lemma finish_stored final c reg registry :
  finish create final c reg = Returns registry →
  ∃ w, settlement create final c = Resolves w ∧ registry = <[c_session c := w]> reg.
Proof.
  unfold finish, assign. destruct (settlement create final c) as [w|code]; [|done].
  case_bool_decide; [done|]. intros [= <-]. by exists w.
Qed.

Lemma fanOut_storable m names : "length" ∉ names → storable (fanOut m names).1.
Proof.
  intros Hnot j c Hc. destruct (fanOut_lookup m names j c Hc) as [Hname _].
  intros Heq. apply Hnot. rewrite <-Heq. by eapply list_elem_of_lookup_2.
Qed.

Lemma gatherInv_start calls i0 code reg :
  i0 < length calls → gatherInv calls i0 code (gatherStart reg (length calls)).
Proof.
  intros Hlt.
  unfold gatherInv, gatherStart; cbn [g_settled g_unresolved g_all g_registry]. split_and!.
  - apply empty_subseteq.
  - assert ((∅ : gset nat) ∖ {[i0]} = ∅) as -> by (clear; set_solver).
    rewrite size_empty. lia.
  - destruct (decide (i0 ∈ (∅ : gset nat))) as [Hin|_]; [by apply elem_of_empty in Hin|].
    case_decide; [lia|done].
  - intros j c Hj. by apply elem_of_empty in Hj.
Qed.

Lemma size_below (X : gset nat) n : X ⊆ set_seq 0 n → (size X ≤ n)%nat.
Proof.
  intros HX. rewrite <-(size_set_seq (C:=gset nat) 0 n). by apply subseteq_size.
Qed.

Lemma gatherInv_settle calls final i0 code g i :
  oneRejects create calls final i0 code → storable calls →
  gatherInv calls i0 code g → gatherInv calls i0 code (settle create calls final g i).
Proof.
  intros [(c0 & Hc0 & Hrej) Hothers] Hstor Hinv. unfold settle.
  case_decide as Hi; [done|].
  destruct (calls !! i) as [c|] eqn:Hc; [|done].
  destruct Hinv as (Hsub & Hcount & Hall & Hreg).
  assert (i < length calls) as Hlt by (by eapply lookup_lt_Some).
  assert (i0 < length calls) as Hlt0 by (by eapply lookup_lt_Some).
  assert ({[i]} ∪ g_settled g ⊆ set_seq 0 (length calls)) as Hsub'.
  { apply union_subseteq; split; [|done].
    apply singleton_subseteq_l, elem_of_set_seq. lia. }
  destruct (decide (i = i0)) as [->|Hne].
  - rewrite Hc in Hc0. injection Hc0 as <-.
    rewrite (finish_rejected _ _ _ _ Hrej). unfold gatherInv; cbn [g_settled g_unresolved g_all g_registry].
    split_and!; [done| | |].
    + assert (({[i0]} ∪ g_settled g) ∖ {[i0]} = g_settled g ∖ {[i0]}) as ->
        by (clear; set_solver).
      done.
    + rewrite Hall. rewrite (decide_False _ _ Hi).
      rewrite (decide_True (P := i0 ∈ {[i0]} ∪ g_settled g)) by (clear; set_solver). done.
    + intros j c' Hj Hjne. apply (Hreg j); [|done]. clear -Hj Hjne. set_solver.
  - destruct (Hothers i c Hne Hc) as [w Hw].
    rewrite (finish_fulfilled _ _ _ _ Hw (Hstor i c Hc)).
    assert (({[i]} ∪ g_settled g) ∖ {[i0]} = {[i]} ∪ (g_settled g ∖ {[i0]})) as Hset
      by (clear -Hne; set_solver).
    assert (size (({[i]} ∪ g_settled g) ∖ {[i0]}) = S (size (g_settled g ∖ {[i0]}))) as Hsize.
    { rewrite Hset, size_union by (clear -Hi; set_solver). by rewrite size_singleton. }
    unfold gatherInv; cbn [g_settled g_unresolved g_all g_registry].
    split_and!; [done| | |].
    + rewrite Hsize.
      assert (size (({[i]} ∪ g_settled g) ∖ {[i0]}) ≤ length calls)%nat.
      { apply size_below. clear -Hsub'. set_solver. }
      lia.
    + rewrite Hall. destruct (decide (i0 ∈ g_settled g)) as [Hin|Hnin].
      * rewrite (decide_True (P := i0 ∈ {[i]} ∪ g_settled g)) by (clear -Hin; set_solver).
        done.
      * rewrite (decide_False (P := i0 ∈ {[i]} ∪ g_settled g))
          by (clear -Hnin Hne; set_solver).
        assert (size ({[i0]} ∪ ({[i]} ∪ (g_settled g ∖ {[i0]}))) ≤ length calls)%nat as Hroom.
        { apply size_below. intros x Hx.
          apply elem_of_union in Hx as [Hx|Hx].
          { apply elem_of_singleton in Hx as ->. apply elem_of_set_seq. lia. }
          apply Hsub'. clear -Hx. set_solver. }
        rewrite size_union in Hroom by (clear -Hne; set_solver).
        rewrite size_singleton, <-Hset, Hsize in Hroom.
        case_decide; [lia|done].
    + intros j c' Hj Hjne Hc'.
      destruct (decide (c_session c = c_session c')) as [->|Hs].
      * rewrite lookup_insert_eq. by eexists.
      * rewrite lookup_insert_ne by done. apply (Hreg j); [|done..].
        apply elem_of_union in Hj as [Hj|Hj]; [|done].
        apply elem_of_singleton in Hj as ->. congruence.
Qed.

Lemma settle_keeps calls final g i j :
  j ∈ g_settled g → j ∈ g_settled (settle create calls final g i).
Proof.
  intros Hj. unfold settle. case_decide; [done|].
  destruct (calls !! i); [|done].
  destruct (finish _ _ _ _); cbn [g_settled]; clear -Hj; set_solver.
Qed.

Lemma settle_adds calls final g i :
  i < length calls → i ∈ g_settled (settle create calls final g i).
Proof.
  intros Hi. unfold settle. case_decide; [done|].
  destruct (lookup_lt_is_Some_2 calls i Hi) as [c ->].
  pose proof (finish_settles final c (g_registry g)) as Hsettles.
  destruct (finish _ _ _ _); [| |done]; cbn [g_settled]; clear; set_solver.
Qed.

Lemma gather_run calls final i0 code schedule g :
  oneRejects create calls final i0 code → storable calls →
  gatherInv calls i0 code g →
  let g' := foldl (settle create calls final) g schedule in
  gatherInv calls i0 code g' ∧
  (∀ j, j ∈ g_settled g → j ∈ g_settled g') ∧
  (∀ j, j ∈ schedule → j < length calls → j ∈ g_settled g').
Proof.
  intros Hone Hstor. revert g. induction schedule as [|i schedule IH]; intros g Hinv; simpl.
  - split_and!; [done|done|]. intros j Hj. by apply elem_of_nil in Hj.
  - destruct (IH (settle create calls final g i)) as (Hinv' & Hkeep & Hadd);
      [by apply gatherInv_settle|].
    split_and!; [done| |].
    + intros j Hj. by apply Hkeep, settle_keeps.
    + intros j Hj Hlt. apply elem_of_cons in Hj as [->|Hj]; [|by apply Hadd].
      by apply Hkeep, settle_adds.
Qed.

Lemma spread_logger options k v :
  k ≠ "logger" →
  spread defaultOptions (Some (<[k:=v]> options)) !! "logger"
  = spread defaultOptions (Some options) !! "logger".
Proof.
  intros Hk. unfold spread; simpl.
  rewrite !lookup_union, lookup_insert_ne by done. done.
Qed.

(** C10. [getSessionNames] ignores a [folderNameToken] given by the caller:
    two calls whose options differ only in [folderNameToken] give the same
    result, and the result depends on the file system only through the
    directory named by the default configuration's [folderNameToken]. *)
Theorem getSessionNames_ignores_folderNameToken options v1 v2 :
  getSessionNames defaultOptions resolve readdir (Some (<["folderNameToken":=v1]> options))
  = getSessionNames defaultOptions resolve readdir (Some (<["folderNameToken":=v2]> options))
  ∧ ∀ folder readdir',
      defaultOptions !! "folderNameToken" = Some (VStr folder) →
      readdir' (resolve folder) = readdir (resolve folder) →
      getSessionNames defaultOptions resolve readdir'
                      (Some (<["folderNameToken":=v1]> options))
      = getSessionNames defaultOptions resolve readdir
                        (Some (<["folderNameToken":=v2]> options)).
Proof.
  split.
  - unfold getSessionNames. by rewrite !spread_logger.
  - intros folder readdir' Hfolder Hsame.
    unfold getSessionNames, readTokens. rewrite !spread_logger by done.
    by rewrite Hfolder, Hsame.
Qed.

Lemma spread_spread options :
  spread defaultOptions (Some (spread defaultOptions options)) = spread defaultOptions options.
Proof.
  unfold spread; simpl. apply map_eq. intros k. rewrite !lookup_union.
  destruct (default ∅ options !! k), (defaultOptions !! k); done.
Qed.

(** C1. What the code does when reading the token directory fails with any
    error [code]: [getSessionNames] logs the error and returns [undefined],
    not an empty list, and [initAllSessions] then raises a [TypeError] on
    [undefined.map] instead of returning the registry. *)
Theorem getSessionNames_read_error options reg schedule folder code sink :
  defaultOptions !! "folderNameToken" = Some (VStr folder) →
  readdir (resolve folder) = Rejects code →
  spread defaultOptions options !! "logger" = Some (VLogger sink) →
  getSessionNames defaultOptions resolve readdir options
  = (Returns None,
     [ {| log_sink := sink; log_msg := "Error getAllTokens() -> ";
          log_err := Rejection code |} ])
  ∧ (initAllSessions defaultOptions resolve readdir create options reg schedule).1.1
    = Throws (TypeError "Cannot read properties of undefined (reading 'map')").
Proof.
  intros Hfolder Herr Hlogger.
  assert (∀ o, spread defaultOptions o !! "logger" = Some (VLogger sink) →
               getSessionNames defaultOptions resolve readdir o
               = (Returns None,
                  [ {| log_sink := sink; log_msg := "Error getAllTokens() -> ";
                       log_err := Rejection code |} ])) as Hget.
  { intros o Ho. unfold getSessionNames, readTokens. by rewrite Hfolder, Herr, Ho. }
  split; [by apply Hget|].
  unfold initAllSessions. rewrite Hget; [done|]. by rewrite spread_spread.
Qed.

Lemma initAllSessions_never_returns options reg schedule names i0 code :
  readTokens defaultOptions resolve readdir = Returns names →
  "length" ∉ names →
  oneRejects create (fanOut (spread defaultOptions options) names).1
             (fanOut (spread defaultOptions options) names).2 i0 code →
  ∀ reg', (initAllSessions defaultOptions resolve readdir create options reg schedule).1.1
          ≠ Returns reg'.
Proof.
  intros Hread Hnot Hone reg'.
  unfold initAllSessions, getSessionNames. rewrite Hread.
  pose proof (fanOut_storable (spread defaultOptions options) names Hnot) as Hstor.
  destruct (fanOut (spread defaultOptions options) names) as [calls final]; simpl in *.
  assert (i0 < length calls) as Hi0.
  { destruct Hone as [(c & Hc & _) _]. by eapply lookup_lt_Some. }
  destruct (gather_run calls final i0 code schedule (gatherStart reg (length calls)) Hone Hstor)
    as ((_ & _ & Hres & _) & _); [by apply gatherInv_start|].
  rewrite Hres. by case_decide.
Qed.

(** C2, as amended. When no identifier is [length] (whose store the array
    refuses), exactly one construction rejects, the others fulfil and all
    of them settle, [initAllSessions] raises the reason of the rejected
    construction; the sibling constructions are not aborted, and each of
    the other identifiers has a handle in [sessionArray] once they have
    settled. *)
Theorem initAllSessions_one_rejection options reg schedule names i0 code :
  readTokens defaultOptions resolve readdir = Returns names →
  "length" ∉ names →
  oneRejects create (fanOut (spread defaultOptions options) names).1
             (fanOut (spread defaultOptions options) names).2 i0 code →
  (∀ j, j < length names → j ∈ schedule) →
  (initAllSessions defaultOptions resolve readdir create options reg schedule).1.1
  = Throws (Rejection code)
  ∧ ∀ j s, j ≠ i0 → names !! j = Some s →
      is_Some ((initAllSessions defaultOptions resolve readdir create options reg schedule).1.2
                 !! s).
Proof.
  intros Hread Hnot Hone Hall.
  unfold initAllSessions, getSessionNames. rewrite Hread.
  pose proof (fanOut_length (spread defaultOptions options) names) as Hlen.
  pose proof (fanOut_lookup (spread defaultOptions options) names) as Hlook.
  pose proof (fanOut_storable (spread defaultOptions options) names Hnot) as Hstor.
  destruct (fanOut (spread defaultOptions options) names) as [calls final]; simpl in *.
  assert (i0 < length calls) as Hi0.
  { destruct Hone as [(c & Hc & _) _]. by eapply lookup_lt_Some. }
  destruct (gather_run calls final i0 code schedule (gatherStart reg (length calls)) Hone Hstor)
    as ((_ & _ & Hres & Hreg) & _ & Hadd); [by apply gatherInv_start|].
  set (g := foldl _ _ schedule) in *.
  split.
  - rewrite Hres. rewrite decide_True; [done|]. apply Hadd; [|done]. apply Hall. lia.
  - intros j s Hj Hs.
    assert (j < length calls) as Hlt by (rewrite Hlen; by eapply lookup_lt_Some).
    destruct (lookup_lt_is_Some_2 calls j Hlt) as [c Hc].
    destruct (Hlook j c Hc) as [Hname _].
    assert (s = c_session c) as -> by congruence.
    apply (Hreg j); [|done..]. apply Hadd; [|done]. apply Hall. lia.
Qed.
End Registry.

(** C1 on a package without a token directory. *)
Lemma getSessionNames_read_error_witness :
  getSessionNames tokensDefaults tokensResolve noTokens None
  = (Returns None,
     [ {| log_sink := 0; log_msg := "Error getAllTokens() -> "; log_err := Rejection "ENOENT" |} ])
  ∧ (initAllSessions tokensDefaults tokensResolve noTokens createLate None ∅ []).1.1
    = Throws (TypeError "Cannot read properties of undefined (reading 'map')").
Proof.
  apply (getSessionNames_read_error tokensDefaults tokensResolve noTokens createLate
           None ∅ [] "./tokens" "ENOENT" 0); reflexivity.
Defined.

(** C10 on a token directory with two tokens. *)
Lemma getSessionNames_ignores_folderNameToken_witness :
  getSessionNames tokensDefaults tokensResolve twoTokens
                  (Some (<["folderNameToken":=VStr "/elsewhere"]> ∅))
  = getSessionNames tokensDefaults tokensResolve twoTokens
                    (Some (<["folderNameToken":=VStr "/other"]> ∅))
  ∧ getSessionNames tokensDefaults tokensResolve twoTokensAmongOthers
                    (Some (<["folderNameToken":=VStr "/elsewhere"]> ∅))
    = getSessionNames tokensDefaults tokensResolve twoTokens
                      (Some (<["folderNameToken":=VStr "/other"]> ∅)).
Proof.
  destruct (getSessionNames_ignores_folderNameToken tokensDefaults tokensResolve twoTokens
              ∅ (VStr "/elsewhere") (VStr "/other")) as [Hsame Hdir].
  split; [exact Hsame|].
  apply (Hdir "./tokens" twoTokensAmongOthers); reflexivity.
Defined.

(** C2 fails as stated: with tokens for [a] and [b], where the construction
    of [a] rejects and that of [b] fulfils, no order of settlement makes
    [initAllSessions] return a registry. *)
Lemma initAllSessions_one_rejection_counterexample :
  ¬ ∃ (schedule : list nat) (reg : Registry),
      (initAllSessions tokensDefaults tokensResolve twoTokens createFailingA None ∅ schedule).1.1
      = Returns reg.
Proof.
  intros (schedule & reg & Hret). revert Hret.
  apply (initAllSessions_never_returns tokensDefaults tokensResolve twoTokens createFailingA
           None ∅ schedule ["a"; "b"] 0 "boom").
  - reflexivity.
  - set_solver.
  - split.
    + eexists. split; reflexivity.
    + intros [|[|j]] c Hj Hc; [done| |done].
      injection Hc as <-. eexists. reflexivity.
Qed.

(** C2, as amended, on the same input, when [b] settles first. *)
Lemma initAllSessions_one_rejection_witness :
  (initAllSessions tokensDefaults tokensResolve twoTokens createFailingA None ∅ [1; 0]).1.1
  = Throws (Rejection "boom")
  ∧ ∀ j s, j ≠ 0 → ["a"; "b"] !! j = Some s →
      is_Some ((initAllSessions tokensDefaults tokensResolve twoTokens createFailingA
                  None ∅ [1; 0]).1.2 !! s).
Proof.
  apply (initAllSessions_one_rejection tokensDefaults tokensResolve twoTokens createFailingA
           None ∅ [1; 0] ["a"; "b"] 0 "boom").
  - reflexivity.
  - set_solver.
  - split.
    + eexists. split; reflexivity.
    + intros [|[|j]] c Hj Hc; [done| |done].
      injection Hc as <-. eexists. reflexivity.
  - intros [|[|j]] Hj; [set_solver..|simpl in Hj; lia].
Defined.

(** C3. What the code does for the identifiers [a] and [b]: [create] is
    called once for each, and at each call the [session] field is that
    identifier; but both calls get the one [mergedOptions] object, whose
    [session] is [b] once the fan-out is over, so a construction for [a]
    that reads its configuration after its first suspension is built for
    [b]. *)
Theorem initAllSessions_shares_mergedOptions :
  c_session <$> (fanOut tokensDefaults ["a"; "b"]).1 = ["a"; "b"]
  ∧ (λ c, c_at_call c !! "session") <$> (fanOut tokensDefaults ["a"; "b"]).1
    = [Some (VStr "a"); Some (VStr "b")]
  ∧ (fanOut tokensDefaults ["a"; "b"]).2 !! "session" = Some (VStr "b")
  ∧ (initAllSessions tokensDefaults tokensResolve twoTokens createLate None ∅ [0; 1]).1.2 !! "a"
    = Some {| wa_session := "b" |}.
Proof.
  split_and!; reflexivity.
Qed.

(** *** The auto-close timer *)

Lemma timerInv_new a q : timerInv (newHost a q).
Proof. reflexivity. Qed.

Lemma timerInv_emit e h : timerInv h → timerInv (emit e h).
Proof. by destruct h. Qed.

Lemma timerInv_notify cb s h : timerInv h → timerInv (notify cb s h).
Proof. destruct cb; [apply timerInv_emit|done]. Qed.

Lemma timerInv_setStatusFind cb h : timerInv h → timerInv (setStatusFind cb h).
Proof. by destruct h. Qed.

Lemma cancelAutoClose_clears h :
  timerInv h →
  autoCloseInterval (cancelAutoClose h) = None ∧ intervals (cancelAutoClose h) = [].
Proof.
  unfold timerInv, cancelAutoClose. destruct h as [a q [id|] sf ivs nh cl t]; simpl.
  - intros [r ->]. split; [done|]. simpl.
    rewrite filter_cons_False; [done|]. simpl. by intros H; apply H.
  - by intros ->.
Qed.

Lemma timerInv_cancelAutoClose h : timerInv h → timerInv (cancelAutoClose h).
Proof.
  intros H. destruct (cancelAutoClose_clears h H) as [H1 H2].
  unfold timerInv. by rewrite H1.
Qed.

Lemma timerInv_startAutoClose h : timerInv h → timerInv (startAutoClose h).
Proof.
  unfold startAutoClose. intros H.
  destruct (bool_decide (0 < autoClose h)%Z); [|done]; simpl.
  case_bool_decide as Hnone; [|done]; simpl.
  unfold timerInv in *. rewrite Hnone in H. simpl. rewrite H. by eexists.
Qed.

Lemma timerInv_tryAutoClose h : timerInv h → timerInv (tryAutoClose h).
Proof.
  intros H. unfold tryAutoClose.
  set (h1 := if bool_decide (autoCloseInterval h = None) then h else cancelAutoClose h).
  assert (timerInv h1) as H1.
  { unfold h1. case_bool_decide; [done|by apply timerInv_cancelAutoClose]. }
  destruct (_ && _ && _); [|done].
  by apply timerInv_emit, timerInv_notify, timerInv_emit.
Qed.

Lemma timerInv_setRemain id r h :
  autoCloseInterval h = Some id → timerInv h → timerInv (setRemain id r h).
Proof.
  unfold timerInv, setRemain. intros ->. intros [r0 Hiv]. simpl. rewrite Hiv. simpl.
  rewrite bool_decide_eq_true_2 by done. by eexists.
Qed.

Lemma timerInv_background b h : timerInv h → timerInv (background b h).
Proof.
  intros H. destruct b as [id|]; simpl.
  - destruct (list_find _ _) as [[k iv]|] eqn:Hfind; [|done].
    apply list_find_Some in Hfind as (Hk & Hid & _). simpl in Hid.
    assert (autoCloseInterval h = Some id) as Hh.
    { unfold timerInv in H. destruct (autoCloseInterval h) as [id'|].
      - destruct H as [r Hr]. rewrite Hr in Hk.
        destruct k; simpl in Hk; [|done]. injection Hk as <-. simpl in Hid. by subst.
      - by rewrite H in Hk. }
    unfold intervalCallback. destruct (isClosed h); [by apply timerInv_cancelAutoClose|].
    set (h1 := setRemain id _ h).
    assert (timerInv h1) as H1 by (by apply timerInv_setRemain).
    set (h2 := if _ || _ then _ else h1).
    assert (timerInv h2) as H2.
    { unfold h2. destruct (_ || _); [by apply timerInv_emit|done]. }
    clearbody h2. destruct (bool_decide _); [by apply timerInv_tryAutoClose|done].
  - apply timerInv_emit, timerInv_cancelAutoClose. by destruct h.
Qed.

Lemma timerInv_suspend bs h : timerInv h → timerInv (suspend bs h).
Proof.
  unfold suspend. revert h. induction bs as [|b bs IH]; intros h H; simpl; [done|].
  by apply IH, timerInv_background.
Qed.

Lemma timerInv_timerOp h op : timerInv h → timerInv (timerOp h op).
Proof.
  destruct op; simpl; auto using timerInv_startAutoClose, timerInv_cancelAutoClose,
    timerInv_tryAutoClose, timerInv_background.
Qed.

Lemma timerInv_run ops h : timerInv h → timerInv (foldl timerOp h ops).
Proof.
  revert h. induction ops as [|op ops IH]; intros h H; simpl; [done|].
  by apply IH, timerInv_timerOp.
Qed.

Lemma timerInv_at_most_one h : timerInv h → (length (intervals h) ≤ 1)%nat.
Proof.
  unfold timerInv. destruct (autoCloseInterval h).
  - intros [r ->]. simpl. lia.
  - intros ->. simpl. lia.
Qed.

Lemma timerStep_refl h : timerStep h h.
Proof. split_and!; [done..|]. exists []. by rewrite app_nil_r. Qed.

Lemma timerStep_trans h1 h2 h3 : timerStep h1 h2 → timerStep h2 h3 → timerStep h1 h3.
Proof.
  intros (Ha & Hq & Hs & es & Ht & Hes) (Ha' & Hq' & Hs' & es' & Ht' & Hes').
  split_and!; [congruence..|]. exists (es ++ es'). split.
  - by rewrite Ht', Ht, app_assoc.
  - apply Forall_app. split; [done|]. by rewrite <-Ha.
Qed.

Lemma timerStep_log h level m : timerStep h (log level m h).
Proof.
  split_and!; [by destruct h..|]. exists [Log level m]. split; [by destruct h|].
  by repeat constructor.
Qed.

Lemma timerStep_cancelAutoClose h : timerStep h (cancelAutoClose h).
Proof. split_and!; [done..|]. exists []. by rewrite app_nil_r. Qed.

Lemma timerStep_startAutoClose h : timerStep h (startAutoClose h).
Proof.
  unfold startAutoClose. destruct (_ && _); [|apply timerStep_refl].
  split_and!; [done..|]. exists [Log Info (AutoCloseConfigured (roundSeconds (autoClose h)))].
  split; [done|]. by repeat constructor.
Qed.

Lemma tryAutoClose_trace h :
  trace (tryAutoClose h)
  = trace h ++ (if bool_decide (0 < autoClose h)%Z && negb (isClosed h)
                then closing (statusFind h) else []).
Proof.
  unfold tryAutoClose.
  set (h1 := if bool_decide (autoCloseInterval h = None) then h else cancelAutoClose h).
  assert (autoCloseInterval h1 = None ∧ autoClose h1 = autoClose h ∧ isClosed h1 = isClosed h
          ∧ statusFind h1 = statusFind h ∧ trace h1 = trace h) as (Hn & Ha & Hc & Hs & Ht).
  { unfold h1. case_bool_decide; [done|]. by destruct h. }
  clearbody h1. rewrite Hn, Ha, Hc. rewrite (bool_decide_eq_true_2 (None = None)) by done.
  rewrite andb_true_r. destruct (_ && _); [|by rewrite app_nil_r].
  unfold closing, log, notify. rewrite <-Ht, <-Hs.
  destruct h1 as [a q i sf ivs nh cl t]; simpl. destruct sf; simpl; by rewrite <-!app_assoc.
Qed.

Lemma tryAutoClose_clears h :
  timerInv h →
  autoCloseInterval (tryAutoClose h) = None ∧ intervals (tryAutoClose h) = [].
Proof.
  intros H. unfold tryAutoClose.
  set (h1 := if bool_decide (autoCloseInterval h = None) then h else cancelAutoClose h).
  assert (autoCloseInterval h1 = None ∧ intervals h1 = []) as [Hn Hi].
  { unfold h1. case_bool_decide as Hd; [|by apply cancelAutoClose_clears].
    split; [done|]. unfold timerInv in H. by rewrite Hd in H. }
  clearbody h1. destruct (_ && _ && _); [|done].
  destruct h1 as [a q i sf ivs nh cl t]; simpl in *. by destruct sf.
Qed.

Lemma timerStep_tryAutoClose h : timerStep h (tryAutoClose h).
Proof.
  assert (autoClose (tryAutoClose h) = autoClose h ∧ logQR (tryAutoClose h) = logQR h
          ∧ statusFind (tryAutoClose h) = statusFind h) as (? & ? & ?).
  { unfold tryAutoClose. destruct h as [a q [id|] sf ivs nh cl t]; simpl;
      destruct (bool_decide (0 < a)%Z), cl, sf; done. }
  split_and!; [done..|].
  eexists. split; [apply tryAutoClose_trace|].
    case_bool_decide as Ha; simpl; [|constructor].
    destruct (isClosed h); simpl; [constructor|].
    unfold closing. destruct (statusFind h); by repeat constructor.
Qed.

Lemma timerStep_setRemain id r h : timerStep h (setRemain id r h).
Proof. split_and!; [done..|]. exists []. by rewrite app_nil_r. Qed.

Lemma timerStep_background b h : timerStep h (background b h).
Proof.
  destruct b as [id|]; simpl.
  - destruct (list_find _ _) as [[k iv]|]; [|apply timerStep_refl].
    unfold intervalCallback. destruct (isClosed h); [apply timerStep_cancelAutoClose|].
    set (h1 := setRemain id _ h).
    assert (timerStep h h1) as H1 by apply timerStep_setRemain.
    set (h2 := if _ || _ then _ else h1).
    assert (timerStep h1 h2) as H2.
    { unfold h2. destruct (_ || _); [apply timerStep_log|apply timerStep_refl]. }
    clearbody h2 h1. destruct (bool_decide _).
    + eapply timerStep_trans; [exact H1|].
      eapply timerStep_trans; [exact H2|apply timerStep_tryAutoClose].
    + by eapply timerStep_trans.
  - split_and!; [by destruct h..|]. exists [Log Error (Text "Page Closed")].
    split; [by destruct h|]. by repeat constructor.
Qed.

Lemma timerStep_suspend bs h : timerStep h (suspend bs h).
Proof.
  unfold suspend. revert h. induction bs as [|b bs IH]; intros h; simpl.
  - apply timerStep_refl.
  - eapply timerStep_trans; [apply timerStep_background|apply IH].
Qed.

Lemma timerStep_timerOp h op : timerStep h (timerOp h op).
Proof.
  destruct op; simpl; auto using timerStep_startAutoClose, timerStep_cancelAutoClose,
    timerStep_tryAutoClose, timerStep_background.
Qed.

Lemma timerStep_run ops h : timerStep h (foldl timerOp h ops).
Proof.
  revert h. induction ops as [|op ops IH]; intros h; simpl.
  - apply timerStep_refl.
  - eapply timerStep_trans; [apply timerStep_timerOp|apply IH].
Qed.

Lemma closeCalls_app t1 t2 : closeCalls (t1 ++ t2) = (closeCalls t1 + closeCalls t2)%nat.
Proof. unfold closeCalls. by rewrite omap_app, length_app. Qed.

Lemma statuses_app t1 t2 : statuses (t1 ++ t2) = statuses t1 ++ statuses t2.
Proof. unfold statuses. by rewrite omap_app. Qed.

Lemma autocloseCalls_app t1 t2 :
  autocloseCalls (t1 ++ t2) = (autocloseCalls t1 + autocloseCalls t2)%nat.
Proof. unfold autocloseCalls. by rewrite statuses_app, filter_app, length_app. Qed.

Lemma qrCalls_app t1 t2 : qrCalls (t1 ++ t2) = qrCalls t1 ++ qrCalls t2.
Proof. unfold qrCalls. by rewrite omap_app. Qed.

Lemma timerEvents_disabled a es :
  (a ≤ 0)%Z → Forall (timerEvent a) es → closeCalls es = 0%nat ∧ autocloseCalls es = 0%nat.
Proof.
  intros Ha. induction 1 as [|e es He _ [IH1 IH2]]; [done|].
  destruct e; simpl in He; try done; [|lia].
  lia.
Qed.

Lemma timerEvents_no_qr a es : Forall (timerEvent a) es → qrCalls es = [].
Proof.
  induction 1 as [|e es He _ IH]; [done|].
  destruct e; simpl in He; done.
Qed.

Lemma timerStep_qrCalls h h' : timerStep h h' → qrCalls (trace h') = qrCalls (trace h).
Proof.
  intros (_ & _ & _ & es & -> & Hes).
  by rewrite qrCalls_app, (timerEvents_no_qr _ _ Hes), app_nil_r.
Qed.

(** *** The countdown *)

Lemma tick_running id r h :
  autoCloseInterval h = Some id →
  intervals h = [ {| handle := id; remain := r |} ] →
  isClosed h = false →
  (1 < r)%Z →
  let h' := background (IntervalFires id) h in
  autoCloseInterval h' = Some id
  ∧ intervals h' = [ {| handle := id; remain := r - 1 |} ]
  ∧ isClosed h' = false ∧ autoClose h' = autoClose h ∧ statusFind h' = statusFind h
  ∧ closeCalls (trace h') = closeCalls (trace h)
  ∧ autocloseCalls (trace h') = autocloseCalls (trace h).
Proof.
  intros Hid Hiv Hcl Hr. simpl. rewrite Hiv. simpl.
  rewrite decide_True by done. simpl.
  unfold intervalCallback. rewrite Hcl.
  rewrite (bool_decide_eq_false_2 (r - 1 ≤ 0)%Z) by lia.
  destruct h as [a q i sf ivs nh cl t]; simpl in *. subst.
  destruct (_ || _); simpl; rewrite bool_decide_eq_true_2 by done;
    rewrite ?closeCalls_app, ?autocloseCalls_app; simpl; split_and!; try done; lia.
Qed.

Lemma tick_fires id r h :
  autoCloseInterval h = Some id →
  intervals h = [ {| handle := id; remain := r |} ] →
  isClosed h = false →
  (0 < autoClose h)%Z →
  (r ≤ 1)%Z →
  let h' := background (IntervalFires id) h in
  autoCloseInterval h' = None ∧ intervals h' = []
  ∧ trace h' = trace h ++ [Log Http (AutoCloseRemain (r - 1))] ++ closing (statusFind h).
Proof.
  intros Hid Hiv Hcl Ha Hr. simpl. rewrite Hiv. simpl.
  rewrite decide_True by done. simpl.
  unfold intervalCallback. rewrite Hcl.
  rewrite (bool_decide_eq_true_2 (r - 1 ≤ 0)%Z) by lia.
  rewrite (bool_decide_eq_true_2 (r - 1 ≤ 5)%Z) by lia. rewrite orb_true_r.
  set (h1 := log _ _ _).
  assert (timerInv h1) as Hinv.
  { unfold h1. apply timerInv_emit, timerInv_setRemain; [done|].
    unfold timerInv. rewrite Hid. by eexists. }
  destruct (tryAutoClose_clears h1 Hinv) as [-> ->]. split_and!; [done..|].
  rewrite tryAutoClose_trace. unfold h1.
  destruct h as [a q i sf ivs nh cl t]; simpl in *. subst.
  rewrite bool_decide_eq_true_2 by done. simpl. by rewrite <-app_assoc.
Qed.

Lemma ticks_idle n id h :
  intervals h = [] → suspend (replicate n (IntervalFires id)) h = h.
Proof.
  intros Hiv. unfold suspend. induction n as [|n IH]; simpl; [done|]. by rewrite Hiv.
Qed.

Lemma suspend_app bs1 bs2 h : suspend (bs1 ++ bs2) h = suspend bs2 (suspend bs1 h).
Proof. unfold suspend. by rewrite foldl_app. Qed.

Lemma ticks_running n id r h :
  autoCloseInterval h = Some id →
  intervals h = [ {| handle := id; remain := r |} ] →
  isClosed h = false →
  (Z.of_nat n < r)%Z →
  let h' := suspend (replicate n (IntervalFires id)) h in
  autoCloseInterval h' = Some id
  ∧ intervals h' = [ {| handle := id; remain := r - Z.of_nat n |} ]
  ∧ isClosed h' = false ∧ autoClose h' = autoClose h ∧ statusFind h' = statusFind h
  ∧ closeCalls (trace h') = closeCalls (trace h)
  ∧ autocloseCalls (trace h') = autocloseCalls (trace h).
Proof.
  revert r h. induction n as [|n IH]; intros r h Hid Hiv Hcl Hr.
  - simpl. replace (r - Z.of_nat 0)%Z with r by lia. done.
  - change (suspend (replicate (S n) (IntervalFires id)) h)
      with (suspend (replicate n (IntervalFires id)) (background (IntervalFires id) h)).
    destruct (tick_running id r h Hid Hiv Hcl) as (Hid' & Hiv' & Hcl' & Ha' & Hs' & Hc' & Hac');
      [lia|].
    destruct (IH (r - 1)%Z _ Hid' Hiv' Hcl') as (? & Hiv'' & ? & ? & ? & ? & ?); [lia|].
    cbv zeta. split_and!; try congruence.
    rewrite Hiv''. f_equal. f_equal. lia.
Qed.

Lemma startAutoClose_starts h :
  (0 < autoClose h)%Z → autoCloseInterval h = None → intervals h = [] →
  autoCloseInterval (startAutoClose h) = Some (nextHandle h)
  ∧ intervals (startAutoClose h)
    = [ {| handle := nextHandle h; remain := roundSeconds (autoClose h) |} ]
  ∧ isClosed (startAutoClose h) = isClosed h
  ∧ autoClose (startAutoClose h) = autoClose h
  ∧ statusFind (startAutoClose h) = statusFind h
  ∧ trace (startAutoClose h)
    = trace h ++ [Log Info (AutoCloseConfigured (roundSeconds (autoClose h)))].
Proof.
  intros Ha Hn Hiv. unfold startAutoClose.
  rewrite bool_decide_eq_true_2 by done. rewrite bool_decide_eq_true_2 by done. simpl.
  by rewrite Hiv.
Qed.

(** C7. With [autoClose <= 0], [startAutoClose] changes nothing and no
    sequence of timer calls and background events closes the page or
    reports [autocloseCalled]. With [autoClose = 5000], an open page, an
    observer and no cancel, the page is closed and [autocloseCalled] is
    reported exactly once, at the fifth tick, when the remaining count is
    0, and not before. *)
Theorem autoClose_countdown :
  (∀ h ops, (autoClose h ≤ 0)%Z →
     startAutoClose h = h
     ∧ closeCalls (trace (foldl timerOp h ops)) = closeCalls (trace h)
     ∧ autocloseCalls (trace (foldl timerOp h ops)) = autocloseCalls (trace h))
  ∧ (∀ h n, autoClose h = 5000%Z →
       autoCloseInterval h = None → intervals h = [] →
       isClosed h = false → statusFind h = true →
       let h' := suspend (replicate n (IntervalFires (nextHandle h))) (startAutoClose h) in
       closeCalls (trace h') = closeCalls (trace h) + (if decide (5 ≤ n) then 1 else 0)
       ∧ autocloseCalls (trace h') = autocloseCalls (trace h) + (if decide (5 ≤ n) then 1 else 0)
       ∧ (n = 5 → ∃ t, trace h' = t ++ [Log Http (AutoCloseRemain 0);
                                        Log Info (Text "Closing the page");
                                        StatusFind "autocloseCalled"; PageClose])).
Proof.
  split.
  - intros h ops Ha. split.
    + unfold startAutoClose. rewrite (bool_decide_eq_false_2 (0 < autoClose h)%Z) by lia. done.
    + destruct (timerStep_run ops h) as (_ & _ & _ & es & -> & Hes).
      destruct (timerEvents_disabled _ _ Ha Hes) as [Hc Hs].
      rewrite closeCalls_app, autocloseCalls_app, Hc, Hs. lia.
  - intros h n Ha Hnone Hiv Hcl Hsf. cbv zeta.
    destruct (startAutoClose_starts h) as (Hid & Hiv1 & Hcl1 & Ha1 & Hsf1 & Ht1); [lia|done..|].
    rewrite Ha in Hiv1. change (roundSeconds 5000) with 5%Z in Hiv1.
    rewrite Hcl in Hcl1. set (h1 := startAutoClose h) in *.
    assert (closeCalls (trace h1) = closeCalls (trace h)
            ∧ autocloseCalls (trace h1) = autocloseCalls (trace h)) as [Hc1 Hs1].
    { rewrite Ht1, closeCalls_app, autocloseCalls_app.
      unfold closeCalls, autocloseCalls, statuses. simpl. lia. }
    destruct (decide (5 ≤ n)) as [Hn|Hn].
    + replace n with (4 + (1 + (n - 5))) by lia.
      rewrite !replicate_add, !suspend_app.
      destruct (ticks_running 4 _ 5%Z h1 Hid Hiv1 Hcl1) as (Hid4 & Hiv4 & Hcl4 & Ha4 & Hsf4 & Hc4 & Hs4);
        [lia|].
      set (h4 := suspend (replicate 4 _) h1) in *.
      destruct (tick_fires _ _ h4 Hid4 Hiv4 Hcl4) as (Hid5 & Hiv5 & Ht5); [lia..|].
      change (suspend (replicate 1 (IntervalFires (nextHandle h))) h4)
        with (background (IntervalFires (nextHandle h)) h4).
      set (h5 := background _ h4) in *.
      rewrite (ticks_idle _ _ h5 Hiv5), Ht5.
      rewrite Hsf4, Hsf1, Hsf.
      rewrite !closeCalls_app, !autocloseCalls_app, Hc4, Hs4, Hc1, Hs1.
      split_and!; [unfold closeCalls; simpl; lia
                  |unfold autocloseCalls, statuses; simpl; lia|].
      intros _. exists (trace h4). done.
    + destruct (ticks_running n _ 5%Z h1 Hid Hiv1 Hcl1) as (_ & _ & _ & _ & _ & Hc & Hs); [lia|].
      rewrite Hc, Hs, Hc1, Hs1. split_and!; [lia..|]. intros ->. lia.
Qed.

(** C8. At most one interval is active, whatever is called on the timer;
    [startAutoClose] while a countdown runs changes nothing;
    [cancelAutoClose] then [startAutoClose] leaves one countdown with the
    full configured duration; [cancelAutoClose] on a cancelled timer
    changes nothing (and, being a total function, raises nothing). *)
Theorem autoClose_single_countdown :
  (∀ a q ops, length (intervals (foldl timerOp (newHost a q) ops)) ≤ 1)
  ∧ (∀ h, autoCloseInterval h ≠ None → startAutoClose h = h)
  ∧ (∀ h, timerInv h → (0 < autoClose h)%Z →
       autoCloseInterval (startAutoClose (cancelAutoClose h)) = Some (nextHandle h)
       ∧ intervals (startAutoClose (cancelAutoClose h))
         = [ {| handle := nextHandle h; remain := roundSeconds (autoClose h) |} ])
  ∧ (∀ h, autoCloseInterval h = None → cancelAutoClose h = h)
  ∧ (∀ h, cancelAutoClose (cancelAutoClose h) = cancelAutoClose h).
Proof.
  split_and!.
  - intros a q ops. apply timerInv_at_most_one, timerInv_run, timerInv_new.
  - intros h Hrun. unfold startAutoClose.
    rewrite (bool_decide_eq_false_2 (autoCloseInterval h = None)) by done.
    by rewrite andb_false_r.
  - intros h Hinv Ha. destruct (cancelAutoClose_clears h Hinv) as [Hn Hiv].
    destruct (startAutoClose_starts (cancelAutoClose h)) as (H1 & H2 & _); [done..|].
    by rewrite H1, H2.
  - intros h Hn. destruct h as [a q i sf ivs nh cl t]; simpl in *. by subst.
  - intros h. by destruct h.
Qed.

(** C7 on a host with [autoClose = 0] and on one with [autoClose = 5000]. *)
Lemma autoClose_countdown_witness :
  startAutoClose (newHost 0 false) = newHost 0 false
  ∧ closeCalls (trace (suspend (replicate 5 (IntervalFires 0))
                         (startAutoClose (setStatusFind true (newHost 5000 false)))))
    = closeCalls (trace (setStatusFind true (newHost 5000 false))) + 1.
Proof.
  destruct autoClose_countdown as [Hoff Hon]. split.
  - apply (Hoff (newHost 0 false) []). simpl. lia.
  - apply (Hon (setStatusFind true (newHost 5000 false)) 5); reflexivity.
Defined.

(** C8 on a new host with [autoClose = 5000]. *)
Lemma autoClose_single_countdown_witness :
  length (intervals (foldl timerOp (newHost 5000 false) [Start; Start])) ≤ 1
  ∧ startAutoClose (startAutoClose (newHost 5000 false)) = startAutoClose (newHost 5000 false)
  ∧ intervals (startAutoClose (cancelAutoClose (startAutoClose (newHost 5000 false))))
    = [ {| handle := 1; remain := 5 |} ]
  ∧ cancelAutoClose (newHost 5000 false) = newHost 5000 false.
Proof.
  destruct autoClose_single_countdown as (Hone & Hstart & Hreset & Hcancel & _).
  split_and!.
  - apply Hone.
  - apply Hstart. simpl. discriminate.
  - apply (Hreset (startAutoClose (newHost 5000 false))).
    + simpl. by eexists.
    + simpl. lia.
  - apply Hcancel. reflexivity.
Defined.

(** *** The scan loop *)

Lemma quietStep_refl h : quietStep h h.
Proof. split; [apply timerStep_refl|done]. Qed.

Lemma quietStep_trans h1 h2 h3 : quietStep h1 h2 → quietStep h2 h3 → quietStep h1 h3.
Proof. intros [H1 I1] [H2 I2]. split; [by eapply timerStep_trans|auto]. Qed.

Lemma quietStep_suspend bs h : quietStep h (suspend bs h).
Proof. split; [apply timerStep_suspend|apply timerInv_suspend]. Qed.

Lemma quietStep_log level m h : quietStep h (log level m h).
Proof. split; [apply timerStep_log|apply timerInv_emit]. Qed.

Lemma quietStep_qrCalls h h' : quietStep h h' → qrCalls (trace h') = qrCalls (trace h).
Proof. intros [H _]. by apply timerStep_qrCalls. Qed.

Lemma bind_unfold {A B} (m : Task A) (k : A → Task B) h :
  (m ≫= k) h = match m h with
               | (h', Val a) => k a h'
               | (h', Exc e) => (h', Exc e)
               | (h', Starved) => (h', Starved)
               end.
Proof. reflexivity. Qed.

Section ScanLoop.
Variable asciiQr : string → string.

Lemma getQrCode_spec r h :
  ∃ h', getQrCode r h = (h', Val (fetched r)) ∧ quietStep h h'.
Proof.
  unfold getQrCode, fetched. rewrite bind_unfold. unfold awaitCatch at 1.
  destruct (truthyCode _).
  - eexists. split; [done|]. apply quietStep_suspend.
  - unfold awaitCatch. eexists. split; [done|].
    eapply quietStep_trans; apply quietStep_suspend.
Qed.

Lemma expectedCalls_attempts previous attempt codes :
  (λ c, c.1.2) <$> expectedCalls asciiQr previous attempt codes
  = seq (S attempt) (length (expectedCalls asciiQr previous attempt codes))
  ∧ (expectedCounter previous attempt codes).2
    = attempt + length (expectedCalls asciiQr previous attempt codes).
Proof.
  revert previous attempt. induction codes as [|[q code] codes IH]; intros previous attempt.
  - simpl. split; [done|lia].
  - cbn [expectedCalls expectedCounter]. case_decide.
    + apply IH.
    + rewrite fmap_cons. cbn [length seq].
      destruct (IH (Some code) (S attempt)) as [-> ->]. split; [done|simpl; lia].
Qed.

Lemma scanLoop_spec catchQR rounds previous attempt h :
  ∃ h', scanLoop asciiQr catchQR rounds previous attempt h
        = (h', if scanEnds rounds
               then Val (expectedCounter previous attempt (observed rounds))
               else Starved)
    ∧ qrCalls (trace h')
      = qrCalls (trace h)
          ++ (if catchQR then expectedCalls asciiQr previous attempt (observed rounds) else [])
    ∧ (timerInv h → timerInv h')
    ∧ statusFind h' = statusFind h ∧ autoClose h' = autoClose h.
Proof.
  revert previous attempt h.
  induction rounds as [|r rounds IH]; intros previous attempt h.
  - exists h. simpl. split_and!; [done| |done..]. destruct catchQR; by rewrite app_nil_r.
  - cbn [scanLoop observed scanEnds]. rewrite bind_unfold. unfold awaitCatch at 1. unfold seen.
    set (h1 := suspend (needsToScan r).1 h).
    assert (quietStep h h1) as Q1 by apply quietStep_suspend.
    destruct (truthy (catch (needsToScan r).2 None)); simpl.
    2:{ exists h1. rewrite (quietStep_qrCalls h h1) by done. destruct Q1 as [(? & ? & ? & _) ?].
        split_and!; [reflexivity|by destruct catchQR; rewrite app_nil_r|done..]. }
    rewrite bind_unfold.
    destruct (getQrCode_spec r h1) as (h2 & -> & Q2).
    assert (quietStep h h2) as Q12 by (by eapply quietStep_trans).
    destruct (truthyCode (fetched r)) as [[q code]|]; simpl.
    2:{ exists h2. rewrite (quietStep_qrCalls h h2) by done.
        destruct Q12 as [(? & ? & ? & _) ?].
        split_and!; [reflexivity|by destruct catchQR; rewrite app_nil_r|done..]. }
    case_bool_decide as Hsame.
    + repeat (rewrite decide_True by done). rewrite bind_unfold. unfold sleep, act.
      set (h3 := suspend (duringSleep r) h2).
      assert (quietStep h h3) as Q3.
      { eapply quietStep_trans; [exact Q12|apply quietStep_suspend]. }
      destruct (IH previous attempt h3) as (h' & -> & Hq & Hi & Hs & Ha).
      exists h'. rewrite Hq, (quietStep_qrCalls h h3) by done.
      destruct Q3 as [(? & ? & ? & _) ?].
      split_and!; [done|done|auto|congruence..].
    + repeat (rewrite decide_False by done). rewrite bind_unfold.
      set (h3 := if logQR h2 || catchQR then suspend (duringAscii r) h2 else h2).
      set (qr := if logQR h2 || catchQR then asciiQr code else EmptyString).
      assert ((if logQR h2 || catchQR
               then (suspend (duringAscii r) h2, Val (asciiQr code))
               else (h2, Val EmptyString)) = (h3, Val qr)) as ->.
      { unfold h3, qr. by destruct (_ || _). }
      assert (quietStep h h3) as Q3.
      { eapply quietStep_trans; [exact Q12|]. unfold h3.
        destruct (_ || _); [apply quietStep_suspend|apply quietStep_refl]. }
      rewrite bind_unfold. unfold act at 1.
      set (h4 := if logQR h3 then _ else _).
      assert (quietStep h h4) as Q4.
      { eapply quietStep_trans; [exact Q3|]. unfold h4.
        destruct (logQR h3); apply quietStep_log. }
      rewrite bind_unfold. unfold act at 1.
      set (h5 := if catchQR then _ else h4).
      rewrite bind_unfold. unfold sleep, act.
      set (h6 := suspend (duringSleep r) h5).
      destruct (IH (Some code) (S attempt) h6) as (h' & -> & Hq & Hi & Hs & Ha).
      exists h'. rewrite Hq.
      assert (quietStep h5 h6) as Q6 by apply quietStep_suspend.
      rewrite (quietStep_qrCalls h5 h6) by done.
      assert (qrCalls (trace h5)
              = qrCalls (trace h)
                  ++ (if catchQR then [(base64Image q, asciiQr code, S attempt, code)] else [])
              ∧ (timerInv h4 → timerInv h5)
              ∧ statusFind h5 = statusFind h4 ∧ autoClose h5 = autoClose h4)
        as (Hq5 & Hi5 & Hs5 & Ha5).
      { unfold h5, qr. destruct catchQR.
        - rewrite orb_true_r. split_and!; [|apply timerInv_emit|by destruct h4..].
          replace (trace (emit _ h4))
            with (trace h4 ++ [CatchQR (base64Image q) (asciiQr code) (S attempt) code])
            by (by destruct h4).
          rewrite qrCalls_app. f_equal. by apply quietStep_qrCalls.
        - rewrite app_nil_r. split_and!; [|done..]. by apply quietStep_qrCalls. }
      destruct Q4 as [(Ha4 & _ & Hs4 & _) Hi4].
      destruct Q6 as [(Ha6 & _ & Hs6 & _) Hi6].
      rewrite Hq5. split_and!; [done| |auto|congruence..].
      destruct catchQR; rewrite <-?app_assoc; done.
Qed.
End ScanLoop.

Lemma waitForQrCodeScan_spec asciiQr catchQR rounds h :
  ∃ h', waitForQrCodeScan asciiQr catchQR rounds h
        = (h', if scanEnds rounds then Val tt else Starved)
    ∧ qrCalls (trace h')
      = qrCalls (trace h)
          ++ (if catchQR then expectedCalls asciiQr None 0 (observed rounds) else [])
    ∧ (timerInv h → timerInv h').
Proof.
  unfold waitForQrCodeScan. rewrite bind_unfold.
  destruct (scanLoop_spec asciiQr catchQR rounds None 0 h) as (h' & -> & Hq & Hi & _).
  exists h'. by destruct (scanEnds rounds).
Qed.

(** C5. With an observer registered, the calls of the observer made by
    [waitForQrCodeScan] are those of the counter rule: one call each time
    the code fetched differs from the one seen before, with attempts
    1, 2, 3, ...; the loop's counter ends as the number of calls. The
    codes A, A, B, B, B give two calls, with attempts 1 and 2. *)
Theorem waitForQrCodeScan_attempts (asciiQr : string → string) :
  (∀ rounds h,
     let calls := expectedCalls asciiQr None 0 (observed rounds) in
     qrCalls (trace (waitForQrCodeScan asciiQr true rounds h).1) = qrCalls (trace h) ++ calls
     ∧ (λ c, c.1.2) <$> calls = seq 1 (length calls)
     ∧ (scanLoop asciiQr true rounds None 0 h).2
       = (if scanEnds rounds then Val (expectedCounter None 0 (observed rounds)) else Starved)
     ∧ (expectedCounter None 0 (observed rounds)).2 = length calls)
  ∧ (∀ h,
       qrCalls (trace (waitForQrCodeScan asciiQr true
                         [showing "A"; showing "A"; showing "B"; showing "B"; showing "B";
                          scanned] h).1)
       = qrCalls (trace h) ++ [("image of A", asciiQr "A", 1, "A");
                               ("image of B", asciiQr "B", 2, "B")]).
Proof.
  assert (∀ rounds h,
            qrCalls (trace (waitForQrCodeScan asciiQr true rounds h).1)
            = qrCalls (trace h) ++ expectedCalls asciiQr None 0 (observed rounds)) as Hcalls.
  { intros rounds h.
    destruct (waitForQrCodeScan_spec asciiQr true rounds h) as (h' & -> & Hq & _). done. }
  split.
  - intros rounds h. cbv zeta.
    destruct (expectedCalls_attempts asciiQr None 0 (observed rounds)) as [Hseq Hcount].
    destruct (scanLoop_spec asciiQr true rounds None 0 h) as (h' & Hrun & _).
    split_and!; [apply Hcalls|done|by rewrite Hrun|done].
  - intros h. rewrite Hcalls. reflexivity.
Qed.

(** *** The login sequence *)

Lemma notify_trace cb s h : trace (notify cb s h) = trace h ++ notified cb s.
Proof. destruct cb; simpl; [done|by rewrite app_nil_r]. Qed.

Lemma log_trace level m h : trace (log level m h) = trace h ++ [Log level m].
Proof. done. Qed.

Lemma timerInv_beforeLogin sf p h : timerInv h → timerInv (beforeLogin sf p h).
Proof.
  intros H. unfold beforeLogin.
  apply timerInv_startAutoClose, timerInv_suspend, timerInv_emit, timerInv_suspend,
    timerInv_suspend, timerInv_emit, timerInv_setStatusFind, H.
Qed.

Section Login.
Variable asciiQr : string → string.

Lemma waitForLogin_unfold catchQR sf p h :
  waitForLogin asciiQr catchQR sf p h
  = match loginOrScan asciiQr catchQR sf p (catch (isAuthenticated p).2 None)
            (beforeLogin sf p h) with
    | (h1, Val authenticated) => finishLogin sf p authenticated h1
    | (h1, Exc e) => (h1, Exc e)
    | (h1, Starved) => (h1, Starved)
    end.
Proof. reflexivity. Qed.

Lemma inChatLoop_spec polls inChat h :
  ∃ h' res, inChatLoop inChat polls h = (h', res)
    ∧ (timerInv h → timerInv h')
    ∧ (∀ v, res = Val v → v ≠ Some false)
    ∧ (∀ e, res = Exc e → ∃ code, e = Rejection code).
Proof.
  revert inChat h. induction polls as [|[during answer] polls IH]; intros inChat h.
  - simpl. case_bool_decide as Hv.
    + exists h, Starved. split_and!; [done..| |]; intros ? [=].
    + exists h, (Val inChat). split_and!; [done..| |]; [by intros ? [= <-]|intros ? [=]].
  - cbn [inChatLoop]. case_bool_decide as Hv.
    2:{ exists h, (Val inChat). split_and!; [done..| |]; [by intros ? [= <-]|intros ? [=]]. }
    run_task. destruct answer as [bs [v|code]]; simpl.
    + destruct (IH v (suspend bs (suspend during h))) as (h' & res & -> & Hi & Hv' & He).
      exists h', res. split_and!; [done| |done..].
      intros H. by apply Hi, timerInv_suspend, timerInv_suspend.
    + eexists _, _. split_and!; [done| | |].
      * intros H. by apply timerInv_suspend, timerInv_suspend.
      * intros ? [=].
      * intros ? [= <-]. by eexists.
Qed.

Lemma waitForInChat_spec p h :
  ∃ h' res, waitForInChat p h = (h', res)
    ∧ (timerInv h → timerInv h')
    ∧ (∀ v, res = Val v → v ≠ Some false)
    ∧ (∀ e, res = Exc e → ∃ code, e = Rejection code).
Proof.
  unfold waitForInChat. run_task. destruct (isInsideChat p) as [bs [v|code]]; simpl.
  - destruct (inChatLoop_spec (insideChatPolls p) v (suspend bs h))
      as (h' & res & -> & Hi & Hv & He).
    exists h', res. split_and!; [done| |done..]. intros H. by apply Hi, timerInv_suspend.
  - eexists _, _. split_and!; [done| | |].
    + intros H. by apply timerInv_suspend.
    + intros ? [=].
    + intros ? [= <-]. by eexists.
Qed.

(** The scan branch and the logged-in branch. *)
Lemma loginOrScan_spec catchQR sf p authenticated h :
  ∃ h' res, loginOrScan asciiQr catchQR sf p authenticated h = (h', res)
    ∧ (timerInv h → timerInv h')
    ∧ (∀ v, res = Val v → v ≠ Some false)
    ∧ (∀ e, res = Exc e → e = ThrowStr "Failed to read the QRCode")
    ∧ (authenticated = Some false → scanEnds (scanRounds p) = true →
       match catch (isAuthenticatedAgain p).2 None with
       | Some false => res = Exc (ThrowStr "Failed to read the QRCode")
       | Some true => res = Val (Some true)
       | None =>
           res = Val None
           ∧ ∃ t, trace h' = t ++ [Log Warn (Text "Failed to authenticate")]
                               ++ notified sf "qrReadError"
       end).
Proof.
  unfold loginOrScan. case_bool_decide as Hfalse.
  - run_task.
    destruct (waitForQrCodeScan_spec asciiQr catchQR (scanRounds p)
                (notify sf "notLogged" (log Http (Text "Waiting for QRCode Scan...") h)))
      as (h1 & -> & _ & Hi1).
    assert (timerInv h → timerInv h1) as Hi.
    { intros H. by apply Hi1, timerInv_notify, timerInv_emit. }
    destruct (scanEnds (scanRounds p)).
    2:{ exists h1, Starved. split_and!; [done|done| | |done]; intros ? [=]. }
    set (h2 := suspend (isAuthenticatedAgain p).1 _).
    assert (timerInv h → timerInv h2) as Hi2.
    { intros H. by apply timerInv_suspend, timerInv_suspend, timerInv_emit, Hi. }
    destruct (catch (isAuthenticatedAgain p).2 None) as [[|]|].
    + eexists _, _. split_and!; [done| | | |done].
      * intros H. by apply timerInv_notify, timerInv_emit, Hi2.
      * by intros ? [= <-].
      * intros ? [=].
    + eexists _, _. split_and!; [done| | | |done].
      * intros H. by apply timerInv_tryAutoClose, timerInv_notify, timerInv_emit, Hi2.
      * intros ? [=].
      * by intros ? [= <-].
    + eexists _, _. split_and!; [done| | | |].
      * intros H. by apply timerInv_notify, timerInv_emit, Hi2.
      * by intros ? [= <-].
      * intros ? [=].
      * intros _ _. split; [done|]. exists (trace h2).
        by rewrite notify_trace, log_trace, <-app_assoc.
  - case_bool_decide as Htrue.
    + run_task. eexists _, _. split_and!; [done| | | |done].
      * intros H. by apply timerInv_notify, timerInv_emit.
      * intros ? [= <-]. by subst.
      * intros ? [=].
    + run_task. exists h, (Val authenticated). split_and!; [done..| | |done].
      * by intros ? [= <-].
      * intros ? [=].
Qed.

(** From [if (authenticated === true)] on. *)
Lemma finishLogin_spec sf p authenticated h :
  authenticated ≠ Some false →
  ∃ h' res, finishLogin sf p authenticated h = (h', res)
    ∧ res ≠ Exc (ThrowStr "Not logged")
    ∧ (∀ v, res = Val v →
         v = true
         ∧ (timerInv h → autoCloseInterval h' = None ∧ intervals h' = [])
         ∧ ∃ t, trace h' = t ++ [Log Http (Text "Connected")] ++ notified sf "inChat")
    ∧ (authenticated = None →
         res = Exc (ThrowStr "Unknow error")
         ∧ trace h' = trace h
                        ++ (if bool_decide (0 < autoClose h)%Z && negb (isClosed h)
                            then closing (statusFind h) else [])
                        ++ [Log Error (Text "Unknow error")]).
Proof.
  intros Hnf. unfold finishLogin. case_bool_decide as Htrue.
  - run_task.
    set (h1 := log Http (Text "Checking phone is connected...") _).
    assert (timerInv h → timerInv h1) as Hi1.
    { intros H. by apply timerInv_emit, timerInv_suspend, timerInv_startAutoClose,
        timerInv_cancelAutoClose. }
    destruct (waitForInChat_spec p h1) as (h2 & res & -> & Hi2 & Hv & He).
    destruct res as [v|e|].
    + destruct (truthy v) eqn:Hv'; simpl.
      * eexists _, _. split_and!; [done|done| |by subst].
        intros ? [= <-]. split_and!; [done| |].
        -- intros H. specialize (Hi2 (Hi1 H)).
           destruct (cancelAutoClose_clears h2 Hi2) as [Hn Hiv].
           split; [by destruct sf | by destruct sf].
        -- eexists. by rewrite notify_trace, log_trace, <-app_assoc.
      * eexists _, _. split_and!; [done|done| |by subst]. intros ? [=].
    + eexists _, _. split_and!; [done| | |by subst]; [|intros ? [=]].
      destruct (He e eq_refl) as [code ->]. done.
    + eexists _, _. split_and!; [done|done| |by subst]. intros ? [=].
  - rewrite bool_decide_eq_false_2 by done. run_task.
    eexists _, _. split_and!; [done|done| |]; [intros ? [=]|].
    intros _. split; [done|]. by rewrite log_trace, tryAutoClose_trace, <-app_assoc.
Qed.
End Login.


(** C6. Every run of [waitForLogin] that returns, returns [true] with no
    interval active and the handle cleared, and the last thing it did was
    to log ['Connected'] and report [inChat] to the observer. *)
Theorem waitForLogin_connected asciiQr catchQR sf p h h' v :
  timerInv h →
  waitForLogin asciiQr catchQR sf p h = (h', Val v) →
  v = true
  ∧ autoCloseInterval h' = None ∧ intervals h' = []
  ∧ (∃ t, trace h' = t ++ [Log Http (Text "Connected")] ++ notified sf "inChat")
  ∧ (sf = true → last (trace h') = Some (StatusFind "inChat")).
Proof.
  intros Hinv. rewrite waitForLogin_unfold.
  destruct (loginOrScan_spec asciiQr catchQR sf p (catch (isAuthenticated p).2 None)
              (beforeLogin sf p h)) as (h1 & res & -> & Hi1 & Hv & _).
  destruct res as [a|e|]; [|intros [=]..].
  destruct (finishLogin_spec sf p a h1) as (h2 & res & -> & _ & Hval & _); [by apply Hv|].
  intros [= -> ->]. destruct (Hval v eq_refl) as (-> & Hclear & t & Ht).
  destruct Hclear as [Hn Hiv]; [by apply Hi1, timerInv_beforeLogin|].
  split_and!; [done..|by exists t|].
  intros ->. rewrite Ht. cbv [notified]. rewrite app_assoc. apply last_snoc.
Qed.

(** C9. [waitForLogin] never raises ['Not logged']: after the first
    [if ... else if], [authenticated] is never [false], because a second
    probe that says [false] makes the scan branch raise
    ['Failed to read the QRCode']. *)
Theorem waitForLogin_never_not_logged asciiQr catchQR sf p h :
  (waitForLogin asciiQr catchQR sf p h).2 ≠ Exc (ThrowStr "Not logged")
  ∧ (∀ h0 h1 authenticated,
       loginOrScan asciiQr catchQR sf p (catch (isAuthenticated p).2 None) h0
       = (h1, Val authenticated) →
       authenticated ≠ Some false)
  ∧ (catch (isAuthenticated p).2 None = Some false →
     scanEnds (scanRounds p) = true →
     catch (isAuthenticatedAgain p).2 None = Some false →
     (waitForLogin asciiQr catchQR sf p h).2 = Exc (ThrowStr "Failed to read the QRCode")).
Proof.
  split_and!.
  - rewrite waitForLogin_unfold.
    destruct (loginOrScan_spec asciiQr catchQR sf p (catch (isAuthenticated p).2 None)
                (beforeLogin sf p h)) as (h1 & res & -> & _ & Hv & He & _).
    destruct res as [a|e|]; [| |done].
    + destruct (finishLogin_spec sf p a h1) as (h2 & res & -> & Hne & _); [by apply Hv|].
      exact Hne.
    + rewrite (He e eq_refl). done.
  - intros h0 h1 a Hrun.
    destruct (loginOrScan_spec asciiQr catchQR sf p (catch (isAuthenticated p).2 None) h0)
      as (h1' & res & Hrun' & _ & Hv & _).
    rewrite Hrun in Hrun'. injection Hrun' as <- <-. by apply Hv.
  - intros Hfirst Hends Hagain. rewrite waitForLogin_unfold, Hfirst.
    destruct (loginOrScan_spec asciiQr catchQR sf p (Some false) (beforeLogin sf p h))
      as (h1 & res & -> & _ & _ & _ & Hscan).
    specialize (Hscan eq_refl Hends). rewrite Hagain in Hscan. by rewrite Hscan.
Qed.



(** C6 on a page that is scanned and then reaches the chat. *)
Lemma waitForLogin_connected_witness :
  autoCloseInterval
    (waitForLogin boxed true true (scanPage (Resolves (Some true))) (newHost 60000 false)).1
  = None
  ∧ last (trace (waitForLogin boxed true true (scanPage (Resolves (Some true)))
                   (newHost 60000 false)).1)
    = Some (StatusFind "inChat").
Proof.
  destruct (waitForLogin_connected boxed true true (scanPage (Resolves (Some true)))
              (newHost 60000 false)
              (waitForLogin boxed true true (scanPage (Resolves (Some true)))
                 (newHost 60000 false)).1
              true) as (_ & Hn & _ & _ & Hlast).
  - reflexivity.
  - vm_compute. reflexivity.
  - split; [exact Hn|by apply Hlast].
Defined.

(** C9 on a page whose second probe says not authenticated. *)
Lemma waitForLogin_never_not_logged_witness :
  (waitForLogin boxed true true (scanPage (Resolves (Some false))) (newHost 60000 false)).2
  = Exc (ThrowStr "Failed to read the QRCode").
Proof.
  apply (waitForLogin_never_not_logged boxed true true (scanPage (Resolves (Some false)))
           (newHost 60000 false)); reflexivity.
Defined.

(** ** More of the session registry *)

Lemma replace_dotFree s : dotFree s = true → replace ".data.json" EmptyString s = s.
Proof.
  induction s as [|c s IH]; [done|]. intros Hs. cbn [dotFree replace String.prefix String.append] in *.
  destruct (Ascii.ascii_dec "."%char c) as [|Hc]; [discriminate|]. by rewrite IH.
Qed.

Lemma replace_token s :
  dotFree s = true → replace ".data.json" EmptyString (s +:+ ".data.json") = s.
Proof.
  induction s as [|c s IH]; [done|]. intros Hs.
  change (String c s +:+ ".data.json") with (String c (s +:+ ".data.json")).
  cbn [dotFree replace String.prefix] in *.
  destruct (Ascii.ascii_dec "."%char c) as [|Hc]; [discriminate|]. by rewrite IH.
Qed.

Section RegistryMore.
Variable defaultOptions : CreateOptions.
Variable resolve : string → string.
Variable readdir : string → Probe (list string).
Variable create : Creator.

(** X1. When the token directory lists [<stem>.data.json] for stems without
    a dot, [getSessionNames] returns exactly the stems, in the order of the
    listing, and logs nothing. *)
Theorem getSessionNames_tokens options folder stems :
  defaultOptions !! "folderNameToken" = Some (VStr folder) →
  Forall (λ s, dotFree s = true) stems →
  readdir (resolve folder) = Resolves ((λ s, s +:+ ".data.json") <$> stems) →
  getSessionNames defaultOptions resolve readdir options = (Returns (Some stems), []).
Proof.
  intros Hfolder Hstems Hdir. unfold getSessionNames, readTokens. rewrite Hfolder, Hdir.
  assert ((λ m, replace ".data.json" EmptyString m) <$> ((λ s, s +:+ ".data.json") <$> stems)
          = stems) as ->; [|done].
  clear Hdir. induction Hstems as [|s stems Hs _ IH]; [done|].
  rewrite !fmap_cons, IH. f_equal. by apply replace_token.
Qed.

(** X2. [getSessionNames] does not filter the listing: it returns one
    identifier per directory entry, and an entry without a dot (a file or
    directory that is not a token) is returned as an identifier, unchanged. *)
Theorem getSessionNames_keeps_every_entry options folder entries :
  defaultOptions !! "folderNameToken" = Some (VStr folder) →
  readdir (resolve folder) = Resolves entries →
  ∃ names,
    getSessionNames defaultOptions resolve readdir options = (Returns (Some names), [])
    ∧ length names = length entries
    ∧ ∀ i entry, entries !! i = Some entry → dotFree entry = true → names !! i = Some entry.
Proof.
  intros Hfolder Hdir. unfold getSessionNames, readTokens. rewrite Hfolder, Hdir.
  eexists. split; [done|]. split; [by rewrite length_fmap|].
  intros i entry Hi Hfree. rewrite list_lookup_fmap, Hi. simpl. by rewrite replace_dotFree.
Qed.

(** X3. With a logger in the merged options, [getSessionNames] never
    raises: it returns the identifiers and logs nothing, or it returns
    [undefined] and logs exactly one line, with the error. *)
Theorem getSessionNames_never_raises options sink :
  spread defaultOptions options !! "logger" = Some (VLogger sink) →
  (∃ names, getSessionNames defaultOptions resolve readdir options
            = (Returns (Some names), []))
  ∨ (∃ e, getSessionNames defaultOptions resolve readdir options
          = (Returns None, [ {| log_sink := sink; log_msg := "Error getAllTokens() -> ";
                                log_err := e |} ])).
Proof.
  intros Hlogger. unfold getSessionNames. rewrite Hlogger.
  unfold readTokens. destruct (defaultOptions !! "folderNameToken") as [[]|]; eauto.
  destruct (readdir _); eauto.
Qed.

Lemma gatherFulfilled_start calls reg :
  gatherFulfilled calls (gatherStart reg (length calls)).
Proof.
  unfold gatherFulfilled, gatherStart; cbn [g_settled g_unresolved g_all g_registry].
  split_and!; [apply empty_subseteq|by rewrite size_empty|done|].
  intros j c Hj. by apply elem_of_empty in Hj.
Qed.

Lemma gatherFulfilled_settle calls final g i :
  (∀ c, calls !! i = Some c →
        c_session c ≠ "length" ∧ ∃ w, settlement create final c = Resolves w) →
  gatherFulfilled calls g → gatherFulfilled calls (settle create calls final g i).
Proof.
  intros Hi Hinv. unfold settle. case_decide as Hin; [done|].
  destruct (calls !! i) as [c|] eqn:Hc; [|done].
  destruct (Hi c eq_refl) as [Hstor [w Hw]].
  rewrite (finish_fulfilled create _ _ _ _ Hw Hstor).
  destruct Hinv as (Hsub & Hcount & Hall & Hreg).
  assert (i < length calls) as Hlt by (by eapply lookup_lt_Some).
  assert ({[i]} ∪ g_settled g ⊆ set_seq 0 (length calls)) as Hsub'.
  { apply union_subseteq; split; [|done].
    apply singleton_subseteq_l, elem_of_set_seq. lia. }
  assert (size ({[i]} ∪ g_settled g) = S (size (g_settled g))) as Hsize.
  { rewrite size_union by (clear -Hin; set_solver). by rewrite size_singleton. }
  pose proof (size_below _ _ Hsub') as Hroom. rewrite Hsize in Hroom.
  unfold gatherFulfilled; cbn [g_settled g_unresolved g_all g_registry].
  split_and!; [done|rewrite Hsize; lia| |].
  - rewrite Hall. rewrite (decide_False (P := g_unresolved g = 0)) by lia. done.
  - intros j c' Hj Hc'.
    destruct (decide (c_session c = c_session c')) as [->|Hs].
    + rewrite lookup_insert_eq. by eexists.
    + rewrite lookup_insert_ne by done. apply (Hreg j); [|done].
      apply elem_of_union in Hj as [Hj|Hj]; [|done].
      apply elem_of_singleton in Hj as ->. congruence.
Qed.

Lemma settle_settled calls final g i :
  g_settled (settle create calls final g i) ⊆ {[i]} ∪ g_settled g.
Proof.
  unfold settle. case_decide; [clear; set_solver|].
  destruct (calls !! i); [|clear; set_solver].
  destruct (finish _ _ _ _); cbn [g_settled]; clear; set_solver.
Qed.

Lemma gather_settled calls final schedule g :
  g_settled (foldl (settle create calls final) g schedule)
  ⊆ list_to_set schedule ∪ g_settled g.
Proof.
  revert g. induction schedule as [|i schedule IH]; intros g; simpl; [clear; set_solver|].
  pose proof (IH (settle create calls final g i)) as H1.
  pose proof (settle_settled calls final g i) as H2.
  clear -H1 H2. set_solver.
Qed.

Lemma gather_stored_run calls final schedule g :
  (∀ j c, j ∈ schedule → calls !! j = Some c →
          c_session c ≠ "length" ∧ ∃ w, settlement create final c = Resolves w) →
  gatherFulfilled calls g →
  gatherFulfilled calls (foldl (settle create calls final) g schedule).
Proof.
  revert g. induction schedule as [|i schedule IH]; intros g Hful Hinv; simpl; [done|].
  apply IH.
  - intros j c Hj. apply Hful. by apply list_elem_of_further.
  - apply gatherFulfilled_settle; [|done]. intros c. apply Hful, list_elem_of_here.
Qed.

Lemma gather_fulfilled_run calls final schedule g :
  storable calls →
  (∀ j c, j ∈ schedule → calls !! j = Some c → ∃ w, settlement create final c = Resolves w) →
  gatherFulfilled calls g →
  gatherFulfilled calls (foldl (settle create calls final) g schedule).
Proof.
  intros Hstor Hful. apply gather_stored_run. intros j c Hj Hc. split; [by eapply Hstor|].
  by apply (Hful j).
Qed.

Lemma settle_thrown calls final g i e :
  g_all g = Throws e → g_all (settle create calls final g i) = Throws e.
Proof.
  intros He. unfold settle. case_decide; [done|].
  destruct (calls !! i); [|done].
  destruct (finish _ _ _ _); cbn [g_all]; by rewrite He.
Qed.

Lemma gather_thrown calls final schedule g e :
  g_all g = Throws e → g_all (foldl (settle create calls final) g schedule) = Throws e.
Proof.
  revert g. induction schedule as [|i schedule IH]; intros g He; simpl; [done|].
  by apply IH, settle_thrown.
Qed.

Lemma registryFrom_settle calls final reg g i :
  registryFrom create calls final reg g →
  registryFrom create calls final reg (settle create calls final g i).
Proof.
  intros Hinv. unfold settle. case_decide; [done|].
  destruct (calls !! i) as [c|] eqn:Hc; [|done].
  destruct (finish create final c (g_registry g)) as [registry|e|] eqn:Hfin;
    [|exact Hinv..].
  apply finish_stored in Hfin as (w & Hw & ->).
  intros k. cbn [g_registry].
  destruct (decide (c_session c = k)) as [<-|Hk].
  - right. exists c, w. rewrite lookup_insert_eq. split_and!; [|done..].
    by eapply list_elem_of_lookup_2.
  - rewrite lookup_insert_ne by done. apply Hinv.
Qed.

Lemma registryFrom_run calls final reg schedule g :
  registryFrom create calls final reg g →
  registryFrom create calls final reg (foldl (settle create calls final) g schedule).
Proof.
  revert g. induction schedule as [|i schedule IH]; intros g Hinv; simpl; [done|].
  by apply IH, registryFrom_settle.
Qed.

Lemma fanOut_sessions m names : c_session <$> (fanOut m names).1 = names.
Proof.
  revert m. induction names as [|s names IH]; intros m; cbn [fanOut]; [done|].
  specialize (IH (<["session":=VStr s]> m)).
  destruct (fanOut _ names) as [calls final]. cbn [fst] in *. by rewrite fmap_cons, IH.
Qed.

Lemma getSessionNames_merged options :
  getSessionNames defaultOptions resolve readdir (Some (spread defaultOptions options))
  = getSessionNames defaultOptions resolve readdir options.
Proof. unfold getSessionNames. by rewrite spread_spread. Qed.

Lemma gather_covers calls final schedule g j :
  (j ∈ g_settled g ∨ (j ∈ schedule ∧ j < length calls)) →
  j ∈ g_settled (foldl (settle create calls final) g schedule).
Proof.
  revert g. induction schedule as [|i schedule IH]; intros g; simpl.
  - intros [Hj|[Hj _]]; [done|by apply elem_of_nil in Hj].
  - intros [Hj|[Hj Hlt]]; apply IH.
    + left. by apply settle_keeps.
    + apply elem_of_cons in Hj as [->|Hj]; [left; by apply settle_adds|by right].
Qed.

(** X4. When no identifier is [length], every construction fulfils and all
    of them settle, in any order, [initAllSessions] returns the registry as
    it is then, and every identifier of the listing has a handle in it. *)
Theorem initAllSessions_all_fulfil options reg schedule names :
  readTokens defaultOptions resolve readdir = Returns names →
  "length" ∉ names →
  (∀ j c, (fanOut (spread defaultOptions options) names).1 !! j = Some c →
          ∃ w, settlement create (fanOut (spread defaultOptions options) names).2 c
               = Resolves w) →
  (∀ j, j < length names → j ∈ schedule) →
  (initAllSessions defaultOptions resolve readdir create options reg schedule).1.1
  = Returns (initAllSessions defaultOptions resolve readdir create options reg schedule).1.2
  ∧ ∀ s, s ∈ names →
      is_Some ((initAllSessions defaultOptions resolve readdir create options reg schedule).1.2
                 !! s).
Proof.
  intros Hread Hnot Hful Hall.
  unfold initAllSessions. rewrite getSessionNames_merged.
  unfold getSessionNames. rewrite Hread.
  pose proof (fanOut_length (spread defaultOptions options) names) as Hlen.
  pose proof (fanOut_sessions (spread defaultOptions options) names) as Hnames.
  pose proof (fanOut_storable (spread defaultOptions options) names Hnot) as Hstor.
  destruct (fanOut (spread defaultOptions options) names) as [calls final]; simpl in *.
  pose proof (gather_fulfilled_run calls final schedule (gatherStart reg (length calls)) Hstor)
    as Hinv.
  pose proof (λ j, gather_covers calls final schedule (gatherStart reg (length calls)) j)
    as Hcov.
  set (g := foldl _ _ schedule) in *.
  destruct Hinv as (Hsub & Hcount & Hres & Hreg); [|apply gatherFulfilled_start|].
  { intros j c _ Hc. by apply (Hful j). }
  assert (g_settled g = set_seq 0 (length calls)) as Hfull.
  { apply set_eq. intros j. split; [apply Hsub|]. intros Hj%elem_of_set_seq.
    apply Hcov. right. split; [apply Hall|]; lia. }
  rewrite Hfull, size_set_seq in Hcount.
  split.
  - rewrite Hres. rewrite decide_True by lia. done.
  - intros s Hs. rewrite <-Hnames in Hs.
    apply list_elem_of_fmap in Hs as (c & -> & Hc).
    apply list_elem_of_lookup in Hc as [j Hj].
    apply (Hreg j); [|done]. rewrite Hfull. apply elem_of_set_seq.
    apply lookup_lt_Some in Hj. lia.
Qed.

(** X5. With an empty token directory, [initAllSessions] returns the
    registry unchanged and logs nothing, whatever settles. *)
Theorem initAllSessions_no_tokens options reg schedule :
  readTokens defaultOptions resolve readdir = Returns [] →
  initAllSessions defaultOptions resolve readdir create options reg schedule
  = (Returns reg, reg, []).
Proof.
  intros Hread. unfold initAllSessions. rewrite getSessionNames_merged.
  unfold getSessionNames. rewrite Hread. simpl.
  assert (foldl (settle create [] (spread defaultOptions options)) (gatherStart reg 0) schedule
          = gatherStart reg 0) as ->; [|done].
  induction schedule as [|i schedule IH]; simpl; [done|].
  assert (settle create [] (spread defaultOptions options) (gatherStart reg 0) i
          = gatherStart reg 0) as ->; [|done].
  unfold settle. by case_decide.
Qed.

(** X6. When no identifier is [length]: while no construction has rejected
    and one of them has not settled, [initAllSessions] has not returned: it
    is still waiting. *)
Theorem initAllSessions_waits options reg schedule names j0 :
  readTokens defaultOptions resolve readdir = Returns names →
  "length" ∉ names →
  (∀ j c, j ∈ schedule → (fanOut (spread defaultOptions options) names).1 !! j = Some c →
          ∃ w, settlement create (fanOut (spread defaultOptions options) names).2 c
               = Resolves w) →
  j0 < length names → j0 ∉ schedule →
  (initAllSessions defaultOptions resolve readdir create options reg schedule).1.1 = Pending.
Proof.
  intros Hread Hlength Hful Hj0 Hnot.
  unfold initAllSessions. rewrite getSessionNames_merged.
  unfold getSessionNames. rewrite Hread.
  pose proof (fanOut_length (spread defaultOptions options) names) as Hlen.
  pose proof (fanOut_storable (spread defaultOptions options) names Hlength) as Hstor.
  destruct (fanOut (spread defaultOptions options) names) as [calls final]; simpl in *.
  pose proof (gather_fulfilled_run calls final schedule (gatherStart reg (length calls)) Hstor
                Hful (gatherFulfilled_start calls reg)) as (Hsub & Hcount & Hres & _).
  pose proof (gather_settled calls final schedule (gatherStart reg (length calls))) as Hfrom.
  set (g := foldl _ _ schedule) in *.
  assert (j0 ∉ g_settled g) as Hout.
  { intros Hin. apply Hfrom in Hin. cbn [gatherStart g_settled] in Hin.
    apply elem_of_union in Hin as [Hin|Hin]; [|by apply elem_of_empty in Hin].
    by apply elem_of_list_to_set in Hin. }
  assert (size ({[j0]} ∪ g_settled g) ≤ length calls) as Hroom.
  { apply size_below. apply union_subseteq; split; [|done].
    apply singleton_subseteq_l, elem_of_set_seq. lia. }
  rewrite size_union, size_singleton in Hroom by (clear -Hout; set_solver).
  rewrite Hres. rewrite decide_False by lia. done.
Qed.

(** X7. When no identifier is [length], [initAllSessions] raises the reason
    of the first construction to reject, in the order of settlement; what
    settles afterwards, fulfilled or rejected, does not change the reason. *)
Theorem initAllSessions_first_rejection options reg names before i after c code :
  readTokens defaultOptions resolve readdir = Returns names →
  "length" ∉ names →
  (∀ j c, j ∈ before → (fanOut (spread defaultOptions options) names).1 !! j = Some c →
          ∃ w, settlement create (fanOut (spread defaultOptions options) names).2 c
               = Resolves w) →
  (fanOut (spread defaultOptions options) names).1 !! i = Some c →
  settlement create (fanOut (spread defaultOptions options) names).2 c = Rejects code →
  (initAllSessions defaultOptions resolve readdir create options reg
     (before ++ i :: after)).1.1
  = Throws (Rejection code).
Proof.
  intros Hread Hlength Hful Hc Hrej.
  unfold initAllSessions. rewrite getSessionNames_merged.
  unfold getSessionNames. rewrite Hread.
  pose proof (fanOut_storable (spread defaultOptions options) names Hlength) as Hstor.
  destruct (fanOut (spread defaultOptions options) names) as [calls final]; simpl in *.
  assert (i ∉ before) as Hnot.
  { intros Hin. destruct (Hful i c Hin Hc) as [w Hw]. congruence. }
  rewrite foldl_app. simpl.
  pose proof (gather_fulfilled_run calls final before (gatherStart reg (length calls)) Hstor
                Hful (gatherFulfilled_start calls reg)) as (Hsub & Hcount & Hres & _).
  pose proof (gather_settled calls final before (gatherStart reg (length calls))) as Hfrom.
  set (g := foldl _ _ before) in *.
  assert (i ∉ g_settled g) as Hout.
  { intros Hin. apply Hfrom in Hin. cbn [gatherStart g_settled] in Hin.
    apply elem_of_union in Hin as [Hin|Hin]; [|by apply elem_of_empty in Hin].
    by apply elem_of_list_to_set in Hin. }
  assert (size ({[i]} ∪ g_settled g) ≤ length calls) as Hroom.
  { apply size_below. apply union_subseteq; split; [|done].
    apply singleton_subseteq_l, elem_of_set_seq. apply lookup_lt_Some in Hc. lia. }
  rewrite size_union, size_singleton in Hroom by (clear -Hout; set_solver).
  rewrite (gather_thrown calls final after _ (Rejection code)); [done|].
  unfold settle. rewrite decide_False by done.
  rewrite Hc, (finish_rejected create _ _ _ _ Hrej). cbn [g_all].
  rewrite Hres. rewrite decide_False by lia. done.
Qed.

(** X8. Whatever [initAllSessions] does (read error, rejections, any
    order, constructions that never settle), each entry of the registry
    afterwards is the entry it had before, or the handle of a fulfilled
    construction started for that identifier of the listing. *)
Theorem initAllSessions_entries options reg schedule k :
  let after := (initAllSessions defaultOptions resolve readdir create options reg schedule).1.2 in
  after !! k = reg !! k
  ∨ ∃ names w,
      readTokens defaultOptions resolve readdir = Returns names ∧ k ∈ names
      ∧ after !! k = Some w
      ∧ ∃ c, c ∈ (fanOut (spread defaultOptions options) names).1 ∧ c_session c = k
             ∧ settlement create (fanOut (spread defaultOptions options) names).2 c
               = Resolves w.
Proof.
  cbv zeta. unfold initAllSessions. rewrite getSessionNames_merged.
  unfold getSessionNames.
  destruct (readTokens defaultOptions resolve readdir) as [names|e|] eqn:Hread;
    [|destruct (_ !! "logger") as [[]|]; by left|by left].
  pose proof (fanOut_sessions (spread defaultOptions options) names) as Hnames.
  destruct (fanOut (spread defaultOptions options) names) as [calls final] eqn:Hfan; cbn [fst snd] in *.
  assert (registryFrom create calls final reg (gatherStart reg (length calls))) as Hstart
    by (intros k'; by left).
  destruct (registryFrom_run calls final reg schedule _ Hstart k)
    as [Hsame|(c & w & Hc & Hk & Hw & Hlook)]; [by left|].
  right. exists names, w. rewrite Hfan. split_and!; [done| |done|by exists c].
  rewrite <-Hnames, <-Hk. by apply list_elem_of_fmap_2.
Qed.
Lemma finish_stored_key final c reg registry :
  finish create final c reg = Returns registry → c_session c ≠ "length".
Proof.
  unfold finish, assign. destruct (settlement create final c); [|done].
  by case_bool_decide.
Qed.

Lemma finish_length final c reg w :
  settlement create final c = Resolves w → c_session c = "length" →
  finish create final c reg = Throws (RangeError "Invalid array length").
Proof.
  intros Hw Hs. unfold finish, assign. rewrite Hw. by rewrite bool_decide_eq_true_2.
Qed.

Lemma gatherClean_start calls final reg :
  gatherClean create calls final (gatherStart reg (length calls)).
Proof.
  unfold gatherClean, gatherStart; cbn [g_settled g_unresolved g_all g_registry].
  assert (∅ ⊆ set_seq (C := gset nat) 0 (length calls)) by apply empty_subseteq.
  assert (∀ j c, j ∈ (∅ : gset nat) → calls !! j = Some c →
            c_session c ≠ "length" ∧ ∃ w, settlement create final c = Resolves w).
  { intros j c Hj. by apply elem_of_empty in Hj. }
  case_decide; split_and!; try done; by rewrite size_empty.
Qed.

Lemma gatherClean_settle calls final g i :
  gatherClean create calls final g → gatherClean create calls final (settle create calls final g i).
Proof.
  intros Hinv.
  destruct (g_all g) as [[]|e|] eqn:Hall; cycle 1.
  { unfold gatherClean. by rewrite (settle_thrown calls final g i e Hall). }
  all: unfold settle; case_decide as Hin; [done|];
    (destruct (calls !! i) as [c|] eqn:Hc; [|done]);
    unfold gatherClean in Hinv; rewrite Hall in Hinv;
    destruct Hinv as (Hsub & Hcount & Hres & Hreg);
    assert (i < length calls) as Hlt by (by eapply lookup_lt_Some);
    assert ({[i]} ∪ g_settled g ⊆ set_seq 0 (length calls)) as Hsub'
      by (apply union_subseteq; split; [|done];
          apply singleton_subseteq_l, elem_of_set_seq; lia);
    assert (size ({[i]} ∪ g_settled g) = S (size (g_settled g))) as Hsize
      by (rewrite size_union by (clear -Hin; set_solver); by rewrite size_singleton);
    pose proof (size_below _ _ Hsub') as Hroom; rewrite Hsize in Hroom.
  - assert (g_unresolved g ≠ 0) as Hleft by (intros Hz; by rewrite decide_True in Hres).
    destruct (finish create final c (g_registry g)) as [registry|e|] eqn:Hfin.
    + pose proof (finish_stored_key _ _ _ _ Hfin) as Hkey.
      apply finish_stored in Hfin as (w & Hw & ->).
      unfold gatherClean; cbn [g_settled g_unresolved g_all g_registry]. rewrite Hall.
      assert (∀ j c', j ∈ {[i]} ∪ g_settled g → calls !! j = Some c' →
                c_session c' ≠ "length" ∧ ∃ w, settlement create final c' = Resolves w) as Hreg'.
      { intros j c' Hj Hc'. apply elem_of_union in Hj as [Hj|Hj]; [|by apply (Hreg j)].
        apply elem_of_singleton in Hj as ->. assert (c' = c) as -> by congruence. eauto. }
      destruct (decide (Init.Nat.pred (g_unresolved g) = 0));
        split_and!; try done; rewrite Hsize; lia.
    + unfold gatherClean; cbn [g_all]. by rewrite Hall.
    + by apply finish_settles in Hfin.
  - (* [Promise.all] cannot have resolved while a callback is running *)
    assert (g_unresolved g = 0) as Hzero; [|lia].
    by destruct (decide (g_unresolved g = 0)).
Qed.

Lemma gatherClean_run calls final schedule g :
  gatherClean create calls final g →
  gatherClean create calls final (foldl (settle create calls final) g schedule).
Proof.
  revert g. induction schedule as [|i schedule IH]; intros g Hinv; simpl; [done|].
  by apply IH, gatherClean_settle.
Qed.

(** X20. [initAllSessions] returns only when every construction of the
    listing has fulfilled and none of the identifiers is [length], whose
    store the array refuses. *)
Theorem initAllSessions_returns_only_if options reg schedule names reg' :
  readTokens defaultOptions resolve readdir = Returns names →
  (initAllSessions defaultOptions resolve readdir create options reg schedule).1.1
  = Returns reg' →
  ("length" ∉ names)
  ∧ ∀ c, c ∈ (fanOut (spread defaultOptions options) names).1 →
         ∃ w, settlement create (fanOut (spread defaultOptions options) names).2 c = Resolves w.
Proof.
  intros Hread. unfold initAllSessions. rewrite getSessionNames_merged.
  unfold getSessionNames. rewrite Hread.
  pose proof (fanOut_sessions (spread defaultOptions options) names) as Hnames.
  destruct (fanOut (spread defaultOptions options) names) as [calls final]; cbn [fst snd] in *.
  pose proof (gatherClean_run calls final schedule _ (gatherClean_start calls final reg)) as Hinv.
  set (g := foldl _ _ schedule) in *.
  unfold gatherClean in Hinv.
  destruct (g_all g) as [[]|e|] eqn:Hall; [|done..]. intros _.
  destruct Hinv as (Hsub & Hcount & Hres & Hreg).
  assert (g_unresolved g = 0) as Hzero by (by case_decide).
  assert (g_settled g = set_seq 0 (length calls)) as Hfull.
  { apply set_subseteq_size_eq; [done|]. rewrite size_set_seq. lia. }
  assert (∀ c, c ∈ calls → c_session c ≠ "length"
                            ∧ ∃ w, settlement create final c = Resolves w) as Hevery.
  { intros c Hc. apply list_elem_of_lookup in Hc as [j Hj]. apply (Hreg j); [|done].
    rewrite Hfull. apply elem_of_set_seq. apply lookup_lt_Some in Hj. lia. }
  split; [|intros c Hc; by apply Hevery].
  rewrite <-Hnames. intros Hin. apply list_elem_of_fmap in Hin as (c & Heq & Hc).
  by destruct (Hevery c Hc) as [Hkey _].
Qed.

(** X21. When a construction for the identifier [length] fulfils before
    any callback has failed, [initAllSessions] raises the [RangeError] of
    the refused store; what settles afterwards does not change that. *)
Theorem initAllSessions_length options reg names before i after c w :
  readTokens defaultOptions resolve readdir = Returns names →
  (∀ j c, j ∈ before → (fanOut (spread defaultOptions options) names).1 !! j = Some c →
          c_session c ≠ "length"
          ∧ ∃ w, settlement create (fanOut (spread defaultOptions options) names).2 c
                 = Resolves w) →
  (fanOut (spread defaultOptions options) names).1 !! i = Some c →
  c_session c = "length" →
  settlement create (fanOut (spread defaultOptions options) names).2 c = Resolves w →
  (initAllSessions defaultOptions resolve readdir create options reg
     (before ++ i :: after)).1.1
  = Throws (RangeError "Invalid array length").
Proof.
  intros Hread Hful Hc Hkey Hw.
  unfold initAllSessions. rewrite getSessionNames_merged.
  unfold getSessionNames. rewrite Hread.
  destruct (fanOut (spread defaultOptions options) names) as [calls final]; simpl in *.
  assert (i ∉ before) as Hnot.
  { intros Hin. by destruct (Hful i c Hin Hc) as [Hne _]. }
  rewrite foldl_app. simpl.
  pose proof (gather_stored_run calls final before (gatherStart reg (length calls)) Hful
                (gatherFulfilled_start calls reg)) as (Hsub & Hcount & Hres & _).
  pose proof (gather_settled calls final before (gatherStart reg (length calls))) as Hfrom.
  set (g := foldl _ _ before) in *.
  assert (i ∉ g_settled g) as Hout.
  { intros Hin. apply Hfrom in Hin. cbn [gatherStart g_settled] in Hin.
    apply elem_of_union in Hin as [Hin|Hin]; [|by apply elem_of_empty in Hin].
    by apply elem_of_list_to_set in Hin. }
  assert (size ({[i]} ∪ g_settled g) ≤ length calls) as Hroom.
  { apply size_below. apply union_subseteq; split; [|done].
    apply singleton_subseteq_l, elem_of_set_seq. apply lookup_lt_Some in Hc. lia. }
  rewrite size_union, size_singleton in Hroom by (clear -Hout; set_solver).
  rewrite (gather_thrown calls final after _ (RangeError "Invalid array length")); [done|].
  unfold settle. rewrite decide_False by done.
  rewrite Hc, (finish_length _ _ _ _ Hw Hkey). cbn [g_all].
  rewrite Hres. rewrite decide_False by lia. done.
Qed.

Lemma settle_length calls final g i :
  g_registry (settle create calls final g i) !! "length" = g_registry g !! "length".
Proof.
  unfold settle. case_decide; [done|]. destruct (calls !! i) as [c|]; [|done].
  destruct (finish create final c (g_registry g)) as [registry|e|] eqn:Hfin; [|done..].
  pose proof (finish_stored_key _ _ _ _ Hfin) as Hkey.
  apply finish_stored in Hfin as (w & _ & ->). cbn [g_registry].
  by rewrite lookup_insert_ne.
Qed.

Lemma gather_length calls final schedule g :
  g_registry (foldl (settle create calls final) g schedule) !! "length"
  = g_registry g !! "length".
Proof.
  revert g. induction schedule as [|i schedule IH]; intros g; simpl; [done|].
  by rewrite IH, settle_length.
Qed.

(** X22. Whatever [initAllSessions] does, it stores nothing under [length]. *)
Theorem initAllSessions_stores_no_length options reg schedule :
  (initAllSessions defaultOptions resolve readdir create options reg schedule).1.2 !! "length"
  = reg !! "length".
Proof.
  unfold initAllSessions.
  destruct (getSessionNames _ _ _ _) as [[[names|]|e|] logs]; [|done..].
  destruct (fanOut _ names) as [calls final]. cbn [fst snd].
  by rewrite gather_length.
Qed.
End RegistryMore.

Section Registering.
Variable create : Creator.
Variable toPropertyKey : Value → string.

(** X9. Two [createSession] calls that fulfil, for sessions other than
    [length]: the later handle is stored under its session; for different
    sessions both handles are stored and the registry does not depend on
    the order of the calls; every other entry is untouched. *)
Theorem createSession_twice o1 o2 s1 s2 w1 w2 reg :
  o1 !! "session" = Some (VStr s1) → o2 !! "session" = Some (VStr s2) →
  s1 ≠ "length" → s2 ≠ "length" →
  create o1 o1 = Resolves w1 → create o2 o2 = Resolves w2 →
  let after12 := (createSession create toPropertyKey o2
                    (createSession create toPropertyKey o1 reg).2).2 in
  let after21 := (createSession create toPropertyKey o1
                    (createSession create toPropertyKey o2 reg).2).2 in
  after12 !! s2 = Some w2
  ∧ (s1 ≠ s2 → after12 !! s1 = Some w1 ∧ after12 = after21)
  ∧ (∀ k, k ≠ s1 → k ≠ s2 → after12 !! k = reg !! k).
Proof.
  intros Hs1 Hs2 Hl1 Hl2 Hw1 Hw2. cbv zeta. unfold createSession, sessionKey, assign.
  rewrite Hw1, Hw2, Hs1, Hs2.
  rewrite (bool_decide_eq_false_2 (s1 = "length")), (bool_decide_eq_false_2 (s2 = "length"))
    by done.
  cbn [snd]. split_and!.
  - apply lookup_insert_eq.
  - intros Hne. split.
    + rewrite lookup_insert_ne by done. apply lookup_insert_eq.
    + by apply insert_insert_ne.
  - intros k Hk1 Hk2. by rewrite !lookup_insert_ne.
Qed.

(** X19. [createSession] for the session [length] whose construction
    fulfils raises the [RangeError] of the refused store and leaves the
    registry as it was: the handle is lost. *)
Theorem createSession_length o w reg :
  o !! "session" = Some (VStr "length") → create o o = Resolves w →
  createSession create toPropertyKey o reg
  = (Throws (RangeError "Invalid array length"), reg).
Proof.
  intros Hs Hw. unfold createSession, sessionKey, assign. by rewrite Hw, Hs.
Qed.

End Registering.

(** ** More of the auto-close timer *)

Lemma roundSeconds_nonneg ms : (0 < ms)%Z → (0 ≤ roundSeconds ms)%Z.
Proof. intros H. unfold roundSeconds. apply Z.div_pos; lia. Qed.

(** X10. For any [autoClose] that is a whole number of milliseconds, above
    0 and at most [Number.MAX_SAFE_INTEGER], on an open page and without
    cancel, the countdown closes the page exactly once, at tick
    [max 1 (Math.round(autoClose / 1000))], and not before; the observer,
    if there is one, is told once; afterwards no interval is left. *)
Theorem autoClose_fires_at_closingTick h n :
  (0 < autoClose h ≤ MAX_SAFE_INTEGER)%Z →
  autoCloseInterval h = None → intervals h = [] → isClosed h = false →
  let h' := suspend (replicate n (IntervalFires (nextHandle h))) (startAutoClose h) in
  closeCalls (trace h')
  = closeCalls (trace h) + (if decide (closingTick (autoClose h) ≤ n) then 1 else 0)
  ∧ autocloseCalls (trace h')
    = autocloseCalls (trace h)
      + (if decide (closingTick (autoClose h) ≤ n) then (if statusFind h then 1 else 0) else 0)
  ∧ (closingTick (autoClose h) ≤ n → autoCloseInterval h' = None ∧ intervals h' = []).
Proof.
  intros [Ha _] Hnone Hiv Hcl. cbv zeta.
  destruct (startAutoClose_starts h) as (Hid & Hiv1 & Hcl1 & Ha1 & Hsf1 & Ht1); [done..|].
  pose proof (roundSeconds_nonneg _ Ha) as Hs.
  rewrite Hcl in Hcl1. set (h1 := startAutoClose h) in *.
  set (s := roundSeconds (autoClose h)) in *.
  assert (closeCalls (trace h1) = closeCalls (trace h)
          ∧ autocloseCalls (trace h1) = autocloseCalls (trace h)) as [Hc1 Hs1].
  { rewrite Ht1, closeCalls_app, autocloseCalls_app.
    unfold closeCalls, autocloseCalls, statuses. simpl. lia. }
  unfold closingTick. fold s.
  (* the host just before the closing tick *)
  assert (∃ h4 r,
            suspend (replicate (Z.to_nat (Z.max 1 s) - 1) (IntervalFires (nextHandle h))) h1 = h4
            ∧ autoCloseInterval h4 = Some (nextHandle h)
            ∧ intervals h4 = [ {| handle := nextHandle h; remain := r |} ]
            ∧ (r ≤ 1)%Z ∧ isClosed h4 = false ∧ autoClose h4 = autoClose h
            ∧ statusFind h4 = statusFind h
            ∧ closeCalls (trace h4) = closeCalls (trace h)
            ∧ autocloseCalls (trace h4) = autocloseCalls (trace h))
    as (h4 & r & Hrun4 & Hid4 & Hiv4 & Hr4 & Hcl4 & Ha4 & Hsf4 & Hc4 & Hs4).
  { destruct (decide (s ≤ 1)%Z) as [Hsmall|Hbig].
    - replace (Z.to_nat (Z.max 1 s) - 1) with 0 by lia.
      exists h1, s. split_and!; try done; congruence.
    - destruct (ticks_running (Z.to_nat (Z.max 1 s) - 1) _ s h1 Hid Hiv1 Hcl1)
        as (? & ? & ? & ? & ? & ? & ?); [lia|].
      eexists _, _. split_and!; try done; try congruence. lia. }
  destruct (decide (Z.to_nat (Z.max 1 s) ≤ n)) as [Hn|Hn].
  - replace n with ((Z.to_nat (Z.max 1 s) - 1) + (1 + (n - Z.to_nat (Z.max 1 s)))) by lia.
    rewrite !replicate_add, !suspend_app, Hrun4.
    destruct (tick_fires _ _ h4 Hid4 Hiv4 Hcl4) as (Hid5 & Hiv5 & Ht5); [lia..|].
    change (suspend (replicate 1 (IntervalFires (nextHandle h))) h4)
      with (background (IntervalFires (nextHandle h)) h4).
    set (h5 := background _ h4) in *.
    rewrite (ticks_idle _ _ h5 Hiv5), Ht5, Hsf4.
    rewrite !closeCalls_app, !autocloseCalls_app, Hc4, Hs4.
    split_and!; [unfold closeCalls; destruct (statusFind h); simpl; lia
                |unfold autocloseCalls, statuses; destruct (statusFind h); simpl; lia
                |done].
  - assert (n < Z.to_nat (Z.max 1 s)) as Hlt by lia.
    destruct (decide (n = 0)) as [->|Hpos].
    + simpl. split_and!; [lia..|]. intros ?. lia.
    + destruct (ticks_running n _ s h1 Hid Hiv1 Hcl1) as (_ & _ & _ & _ & _ & Hc & Hs'); [lia|].
      rewrite Hc, Hs', Hc1, Hs1. split_and!; [lia..|]. intros ?. lia.
Qed.

Lemma closedStep_refl h : isClosed h = true → closedStep h h.
Proof. intros H. split; [done|]. exists []. by rewrite app_nil_r. Qed.

Lemma closedStep_trans h1 h2 h3 : closedStep h1 h2 → closedStep h2 h3 → closedStep h1 h3.
Proof.
  intros (_ & es & Ht & Hes) (Hc & es' & Ht' & Hes').
  split; [done|]. exists (es ++ es'). split; [by rewrite Ht', Ht, app_assoc|].
  by apply Forall_app.
Qed.

Lemma closedStep_timerOp h op : isClosed h = true → closedStep h (timerOp h op).
Proof.
  intros Hc. destruct op as [| | |[id|]]; simpl.
  - unfold startAutoClose. destruct (_ && _); [|by apply closedStep_refl].
    split; [done|]. eexists [_]. split; [done|]. by repeat constructor.
  - split; [done|]. exists []. by rewrite app_nil_r.
  - split.
    + unfold tryAutoClose. destruct h as [a q [i|] sf ivs nh cl t]; simpl in *; subst;
        by rewrite andb_false_r.
    + eexists. split; [apply tryAutoClose_trace|]. rewrite Hc, andb_false_r. constructor.
  - destruct (list_find _ _) as [[k iv]|]; [|by apply closedStep_refl].
    unfold intervalCallback. rewrite Hc. split; [done|]. exists []. by rewrite app_nil_r.
  - split; [done|]. eexists [_]. split; [by destruct h|]. by repeat constructor.
Qed.

Lemma closedStep_run ops h : isClosed h = true → closedStep h (foldl timerOp h ops).
Proof.
  revert h. induction ops as [|op ops IH]; intros h Hc; simpl; [by apply closedStep_refl|].
  pose proof (closedStep_timerOp h op Hc) as Hstep.
  eapply closedStep_trans; [exact Hstep|]. apply IH. by destruct Hstep.
Qed.

(** X11. Once the page is closed, no sequence of timer calls, ticks and
    close events asks the page to close or reports a status: the trace
    only gets log lines. *)
Theorem closed_page_is_left_alone h ops :
  isClosed h = true →
  isClosed (foldl timerOp h ops) = true
  ∧ closeCalls (trace (foldl timerOp h ops)) = closeCalls (trace h)
  ∧ statuses (trace (foldl timerOp h ops)) = statuses (trace h).
Proof.
  intros Hc. destruct (closedStep_run ops h Hc) as (Hc' & es & -> & Hes).
  split; [done|]. rewrite closeCalls_app, statuses_app.
  assert (closeCalls es = 0 ∧ statuses es = []) as [-> ->].
  { induction Hes as [|e es He _ [IH1 IH2]]; [done|]. by destruct e. }
  by rewrite Nat.add_0_r, app_nil_r.
Qed.

(** X12. [tryAutoClose] always leaves the timer cleared, and it asks the
    page to close whenever [autoClose > 0] and the page is not closed yet,
    whether or not a countdown was running: a second call before the page
    has closed asks again. *)
Theorem tryAutoClose_asks_every_time h :
  timerInv h →
  autoCloseInterval (tryAutoClose h) = None ∧ intervals (tryAutoClose h) = []
  ∧ closeCalls (trace (tryAutoClose h))
    = closeCalls (trace h)
      + (if bool_decide (0 < autoClose h)%Z && negb (isClosed h) then 1 else 0)
  ∧ closeCalls (trace (tryAutoClose (tryAutoClose h)))
    = closeCalls (trace h)
      + (if bool_decide (0 < autoClose h)%Z && negb (isClosed h) then 2 else 0).
Proof.
  intros Hinv. destruct (tryAutoClose_clears h Hinv) as [Hn Hiv].
  destruct (timerStep_tryAutoClose h) as (Ha & _ & Hsf & _).
  assert (isClosed (tryAutoClose h) = isClosed h) as Hcl.
  { unfold tryAutoClose. destruct h as [a q [i|] sf ivs nh cl t]; simpl;
      destruct (bool_decide (0 < a)%Z), cl, sf; done. }
  split_and!; [done..| |].
  - rewrite tryAutoClose_trace, closeCalls_app.
    destruct (_ && _); [|unfold closeCalls; simpl; lia].
    destruct (statusFind h); unfold closeCalls; simpl; lia.
  - rewrite !tryAutoClose_trace, !closeCalls_app, Ha, Hcl, Hsf.
    destruct (_ && _); [|unfold closeCalls; simpl; lia].
    destruct (statusFind h); unfold closeCalls; simpl; lia.
Qed.

(** ** More of the login sequence *)

Lemma reported_app t1 t2 : reported (t1 ++ t2) = reported t1 ++ reported t2.
Proof. unfold reported. by rewrite statuses_app, filter_app. Qed.

Lemma emits_refl h : emits [] [] h h.
Proof. exists []. by rewrite app_nil_r. Qed.

Lemma emits_trans ss1 qs1 ss2 qs2 h1 h2 h3 :
  emits ss1 qs1 h1 h2 → emits ss2 qs2 h2 h3 → emits (ss1 ++ ss2) (qs1 ++ qs2) h1 h3.
Proof.
  intros (es & Ht & Hs & Hq) (es' & Ht' & Hs' & Hq'). exists (es ++ es').
  rewrite Ht', Ht, reported_app, qrCalls_app, Hs, Hs', Hq, Hq'. by rewrite app_assoc.
Qed.

Lemma emits_timer h h' : timerStep h h' → emits [] [] h h'.
Proof.
  intros (_ & _ & _ & es & Ht & Hes). exists es. split; [done|].
  split; [|by eapply timerEvents_no_qr].
  clear Ht. induction Hes as [|e es He _ IH]; [done|].
  destruct e as [| s | |]; try done. simpl in He. destruct He as [-> _].
  unfold reported in *. simpl. rewrite filter_cons_False; [done|].
  intros Hne. by apply Hne.
Qed.

Lemma emits_quiet h h' : quietStep h h' → emits [] [] h h'.
Proof. intros [H _]. by apply emits_timer. Qed.

Lemma emits_log level m h : emits [] [] h (log level m h).
Proof. apply emits_timer, timerStep_log. Qed.

Lemma emits_notify (cb : bool) (s : string) h :
  s ≠ "autocloseCalled" → emits (if cb then [s] else []) [] h (notify cb s h).
Proof.
  intros Hs. destruct cb; [|apply emits_refl].
  exists [StatusFind s]. split; [by destruct h|]. split; [|done].
  unfold reported. simpl. by rewrite filter_cons_True.
Qed.

Lemma seqStep_trans ss1 qs1 ss2 qs2 h1 h2 h3 :
  seqStep ss1 qs1 h1 h2 → seqStep ss2 qs2 h2 h3 → seqStep (ss1 ++ ss2) (qs1 ++ qs2) h1 h3.
Proof. intros [E1 I1] [E2 I2]. split; [by eapply emits_trans|auto]. Qed.

Lemma seqStep_quiet h h' : quietStep h h' → seqStep [] [] h h'.
Proof. intros [H I]. split; [by apply emits_timer|done]. Qed.

Lemma seqStep_then_quiet ss qs h1 h2 h3 :
  seqStep ss qs h1 h2 → quietStep h2 h3 → seqStep ss qs h1 h3.
Proof.
  intros H1 H2. pose proof (seqStep_trans _ _ _ _ _ _ _ H1 (seqStep_quiet _ _ H2)) as H.
  by rewrite !app_nil_r in H.
Qed.

Lemma quiet_then_seqStep ss qs h1 h2 h3 :
  quietStep h1 h2 → seqStep ss qs h2 h3 → seqStep ss qs h1 h3.
Proof.
  intros H1 H2. exact (seqStep_trans _ _ _ _ _ _ _ (seqStep_quiet _ _ H1) H2).
Qed.

Lemma seqStep_notify (cb : bool) (s : string) h :
  s ≠ "autocloseCalled" → seqStep (if cb then [s] else []) [] h (notify cb s h).
Proof. intros Hs. split; [by apply emits_notify|apply timerInv_notify]. Qed.

Lemma quietStep_cancelAutoClose h : quietStep h (cancelAutoClose h).
Proof. split; [apply timerStep_cancelAutoClose|apply timerInv_cancelAutoClose]. Qed.

Lemma quietStep_startAutoClose h : quietStep h (startAutoClose h).
Proof. split; [apply timerStep_startAutoClose|apply timerInv_startAutoClose]. Qed.

Lemma quietStep_tryAutoClose h : quietStep h (tryAutoClose h).
Proof. split; [apply timerStep_tryAutoClose|apply timerInv_tryAutoClose]. Qed.

Lemma seqStep_catchQR i a n u h : seqStep [] [(i, a, n, u)] h (emit (CatchQR i a n u) h).
Proof.
  split; [|apply timerInv_emit]. exists [CatchQR i a n u]. split; [by destruct h|done].
Qed.

Section Sequencer.
Variable asciiQr : string → string.

Lemma scanLoop_seq catchQR rounds previous attempt h :
  ∃ h', scanLoop asciiQr catchQR rounds previous attempt h
        = (h', if scanEnds rounds
               then Val (expectedCounter previous attempt (observed rounds))
               else Starved)
    ∧ seqStep [] (if catchQR then expectedCalls asciiQr previous attempt (observed rounds)
                  else []) h h'.
Proof.
  revert previous attempt h.
  induction rounds as [|r rounds IH]; intros previous attempt h.
  - exists h. simpl. split; [done|]. destruct catchQR; apply seqStep_quiet, quietStep_refl.
  - cbn [scanLoop observed scanEnds]. rewrite bind_unfold. unfold awaitCatch at 1. unfold seen.
    set (h1 := suspend (needsToScan r).1 h).
    assert (quietStep h h1) as Q1 by apply quietStep_suspend.
    destruct (truthy (catch (needsToScan r).2 None)); simpl.
    2:{ exists h1. split; [reflexivity|]. destruct catchQR; by apply seqStep_quiet. }
    rewrite bind_unfold.
    destruct (getQrCode_spec r h1) as (h2 & -> & Q2).
    assert (quietStep h h2) as Q12 by (by eapply quietStep_trans).
    destruct (truthyCode (fetched r)) as [[q code]|]; simpl.
    2:{ exists h2. split; [reflexivity|]. destruct catchQR; by apply seqStep_quiet. }
    case_bool_decide as Hsame.
    + repeat (rewrite decide_True by done). rewrite bind_unfold. unfold sleep, act.
      set (h3 := suspend (duringSleep r) h2).
      assert (quietStep h h3) as Q3.
      { eapply quietStep_trans; [exact Q12|apply quietStep_suspend]. }
      destruct (IH previous attempt h3) as (h' & -> & Hstep).
      exists h'. split; [done|]. by eapply quiet_then_seqStep.
    + repeat (rewrite decide_False by done). rewrite bind_unfold.
      set (h3 := if logQR h2 || catchQR then suspend (duringAscii r) h2 else h2).
      set (qr := if logQR h2 || catchQR then asciiQr code else EmptyString).
      assert ((if logQR h2 || catchQR
               then (suspend (duringAscii r) h2, Val (asciiQr code))
               else (h2, Val EmptyString)) = (h3, Val qr)) as ->.
      { unfold h3, qr. by destruct (_ || _). }
      assert (quietStep h h3) as Q3.
      { eapply quietStep_trans; [exact Q12|]. unfold h3.
        destruct (_ || _); [apply quietStep_suspend|apply quietStep_refl]. }
      rewrite bind_unfold. unfold act at 1.
      set (h4 := if logQR h3 then _ else _).
      assert (quietStep h h4) as Q4.
      { eapply quietStep_trans; [exact Q3|]. unfold h4.
        destruct (logQR h3); apply quietStep_log. }
      rewrite bind_unfold. unfold act at 1.
      set (h5 := if catchQR then _ else h4).
      rewrite bind_unfold. unfold sleep, act.
      set (h6 := suspend (duringSleep r) h5).
      destruct (IH (Some code) (S attempt) h6) as (h' & -> & Hstep).
      exists h'. split; [done|].
      assert (quietStep h5 h6) as Q6 by apply quietStep_suspend.
      pose proof (quiet_then_seqStep _ _ _ _ _ Q6 Hstep) as Hrest.
      destruct catchQR.
      * unfold h5, qr in *. rewrite orb_true_r in *.
        pose proof (seqStep_catchQR (base64Image q) (asciiQr code) (S attempt) code h4) as Hcall.
        pose proof (quiet_then_seqStep _ _ _ _ _ Q4 Hcall) as Hhead.
        exact (seqStep_trans [] [_] [] _ _ _ _ Hhead Hrest).
      * unfold h5 in *. by eapply quiet_then_seqStep.
Qed.

Lemma waitForQrCodeScan_seq catchQR rounds h :
  ∃ h', waitForQrCodeScan asciiQr catchQR rounds h
        = (h', if scanEnds rounds then Val tt else Starved)
    ∧ seqStep [] (if catchQR then expectedCalls asciiQr None 0 (observed rounds) else []) h h'.
Proof.
  unfold waitForQrCodeScan. rewrite bind_unfold.
  destruct (scanLoop_seq catchQR rounds None 0 h) as (h' & -> & Hstep).
  exists h'. by destruct (scanEnds rounds).
Qed.

Lemma inChatLoop_first polls inChat h :
  ∃ h', inChatLoop inChat polls h
        = (h', firstAnswer (Resolves inChat :: ((λ poll, poll.2.2) <$> polls)))
    ∧ quietStep h h'.
Proof.
  revert inChat h. induction polls as [|[during [bs answer]] polls IH]; intros inChat h.
  - simpl. exists h. split; [by case_bool_decide|apply quietStep_refl].
  - cbn [inChatLoop firstAnswer fmap list_fmap]. case_bool_decide as Hv.
    2:{ exists h. split; [done|apply quietStep_refl]. }
    run_task. cbn [fst snd].
    assert (quietStep h (suspend bs (suspend during h))) as Q.
    { eapply quietStep_trans; apply quietStep_suspend. }
    destruct answer as [v|code].
    + destruct (IH v (suspend bs (suspend during h))) as (h' & -> & Q').
      exists h'. split; [done|by eapply quietStep_trans].
    + eexists. split; [done|exact Q].
Qed.

Lemma waitForInChat_first p h :
  ∃ h', waitForInChat p h = (h', firstAnswer (chatAnswers p)) ∧ quietStep h h'.
Proof.
  unfold waitForInChat, chatAnswers. run_task.
  destruct (isInsideChat p) as [bs [v|code]]; cbn [fst snd].
  - destruct (inChatLoop_first (insideChatPolls p) v (suspend bs h)) as (h' & -> & Q).
    exists h'. split; [done|]. eapply quietStep_trans; [apply quietStep_suspend|exact Q].
  - eexists. split; [done|apply quietStep_suspend].
Qed.
End Sequencer.

Lemma cleared_emit e h : cleared h → cleared (emit e h).
Proof. by destruct h. Qed.

Lemma cleared_notify cb s h : cleared h → cleared (notify cb s h).
Proof. destruct cb; [apply cleared_emit|done]. Qed.

Lemma seqStep_log_notify ss qs h0 h level m (sf : bool) (s : string) :
  seqStep ss qs h0 h → s ≠ "autocloseCalled" →
  seqStep (ss ++ (if sf then [s] else [])) qs h0 (notify sf s (log level m h)).
Proof.
  intros H0 Hs.
  pose proof (seqStep_then_quiet _ _ _ _ _ H0 (quietStep_log level m h)) as H1.
  pose proof (seqStep_trans _ _ _ _ _ _ _ H1 (seqStep_notify sf s (log level m h) Hs)) as H2.
  by rewrite app_nil_r in H2.
Qed.

Lemma seqStep_refl h : seqStep [] [] h h.
Proof. apply seqStep_quiet, quietStep_refl. Qed.

Section Login2.
Variable asciiQr : string → string.

Lemma loginOrScan_full catchQR (sf : bool) p authenticated h :
  ∃ h', loginOrScan asciiQr catchQR sf p authenticated h = (h', scanOutcome p authenticated)
    ∧ seqStep (if sf then scanStatuses p authenticated else [])
              (if catchQR && bool_decide (authenticated = Some false)
               then expectedCalls asciiQr None 0 (observed (scanRounds p)) else []) h h'
    ∧ (timerInv h → ∀ reason, scanOutcome p authenticated = Exc (ThrowStr reason) → cleared h').
Proof.
  unfold loginOrScan, scanOutcome, scanStatuses. case_bool_decide as Hfalse.
  - subst authenticated. rewrite andb_true_r. run_task.
    set (h0 := notify sf "notLogged" (log Http (Text "Waiting for QRCode Scan...") h)).
    assert (seqStep ([] ++ (if sf then ["notLogged"] else [])) [] h h0) as S0
      by (by apply seqStep_log_notify; [apply seqStep_refl|]).
    destruct (waitForQrCodeScan_seq asciiQr catchQR (scanRounds p) h0) as (h1 & -> & S1).
    pose proof (seqStep_trans _ _ _ _ _ _ _ S0 S1) as S01.
    rewrite app_nil_r in S01. cbn [app] in S01.
    destruct (scanEnds (scanRounds p)).
    2:{ exists h1. split_and!; [done| |by intros _ ? [=]]. destruct sf; exact S01. }
    set (h2 := suspend (isAuthenticatedAgain p).1 _).
    assert (seqStep (if sf then ["notLogged"] else [])
              (if catchQR then expectedCalls asciiQr None 0 (observed (scanRounds p)) else [])
              h h2) as S2.
    { eapply seqStep_then_quiet; [exact S01|].
      eapply quietStep_trans; [apply quietStep_log|].
      eapply quietStep_trans; apply quietStep_suspend. }
    destruct (catch (isAuthenticatedAgain p).2 None) as [[|]|].
    + eexists. split_and!; [done| |by intros _ ? [=]].
      pose proof (seqStep_log_notify _ _ _ _ Http (Text "QRCode Success") sf "qrReadSuccess"
                    S2 ltac:(done)) as Hall.
      destruct sf; exact Hall.
    + eexists. split_and!; [done| |].
      * pose proof (seqStep_log_notify _ _ _ _ Warn (Text "QRCode Fail") sf "qrReadFail"
                      S2 ltac:(done)) as Hall.
        eapply seqStep_then_quiet; [|apply quietStep_tryAutoClose]. destruct sf; exact Hall.
      * intros Hinv _ _. apply tryAutoClose_clears, timerInv_notify, timerInv_emit.
        by apply S2.
    + eexists. split_and!; [done| |by intros _ ? [=]].
      pose proof (seqStep_log_notify _ _ _ _ Warn (Text "Failed to authenticate") sf
                    "qrReadError" S2 ltac:(done)) as Hall.
      destruct sf; exact Hall.
  - rewrite andb_false_r. case_bool_decide as Htrue.
    + subst authenticated. run_task. eexists. split_and!; [done| |by intros _ ? [=]].
      pose proof (seqStep_log_notify _ _ _ _ Http (Text "Authenticated") sf "isLogged"
                    (seqStep_refl h) ltac:(done)) as Hall.
      destruct sf; exact Hall.
    + run_task. exists h. split_and!; [done| |by intros _ ? [=]].
      destruct authenticated as [[|]|]; try done; destruct sf; apply seqStep_refl.
Qed.

Lemma finishLogin_full (sf : bool) p authenticated h :
  ∃ h', finishLogin sf p authenticated h = (h', finishOutcome p authenticated)
    ∧ seqStep (if sf then match authenticated with
                          | Some true => chatStatuses p
                          | _ => []
                          end else []) [] h h'
    ∧ (timerInv h → stops (finishOutcome p authenticated) → cleared h').
Proof.
  unfold finishLogin, finishOutcome. destruct authenticated as [[|]|].
  - rewrite (bool_decide_eq_true_2 (Some true = Some true)) by done. run_task.
    set (h1 := log Http (Text "Checking phone is connected...") _).
    assert (quietStep h h1) as Q1.
    { eapply quietStep_trans; [apply quietStep_cancelAutoClose|].
      eapply quietStep_trans; [apply quietStep_startAutoClose|].
      eapply quietStep_trans; [apply quietStep_suspend|apply quietStep_log]. }
    destruct (waitForInChat_first p h1) as (h2 & -> & Q2).
    assert (quietStep h h2) as Q12 by (by eapply quietStep_trans).
    pose proof (seqStep_quiet _ _ Q12) as S2.
    unfold chatOutcome, chatStatuses.
    destruct (firstAnswer (chatAnswers p)) as [v|e|] eqn:Hfirst.
    + destruct (truthy v); cbn [negb].
      * eexists. split_and!; [done| |].
        -- pose proof (seqStep_log_notify _ _ _ _ Http (Text "Connected") sf "inChat"
                         (seqStep_then_quiet _ _ _ _ _ S2 (quietStep_cancelAutoClose h2))
                         ltac:(done)) as Hall.
           destruct sf; exact Hall.
        -- intros Hinv _. apply cleared_notify, cleared_emit.
           apply cancelAutoClose_clears. by apply Q12.
      * eexists. split_and!; [done| |].
        -- pose proof (seqStep_log_notify _ _ _ _ Warn (Text "Phone not connected") sf
                         "phoneNotConnected" S2 ltac:(done)) as Hall.
           eapply seqStep_then_quiet; [|apply quietStep_tryAutoClose]. destruct sf; exact Hall.
        -- intros Hinv _. apply tryAutoClose_clears, timerInv_notify, timerInv_emit.
           by apply Q12.
    + exists h2. split_and!; [done|destruct sf; exact S2|].
      intros _ Hstop. exfalso.
      assert (∃ code, e = Rejection code) as [code ->]; [|done].
      clear -Hfirst. induction (chatAnswers p) as [|[v|code] answers IH]; [done| |].
      * simpl in Hfirst. case_bool_decide; [by apply IH|done].
      * simpl in Hfirst. injection Hfirst as <-. by eexists.
    + exists h2. split_and!; [done|destruct sf; exact S2|by intros _ []].
  - rewrite (bool_decide_eq_false_2 (Some false = Some true)) by done.
    rewrite (bool_decide_eq_true_2 (Some false = Some false)) by done. run_task.
    eexists. split_and!; [done| |].
    + assert (quietStep h (log Warn (Text "Not logged") (tryAutoClose h))) as Q.
      { eapply quietStep_trans; [apply quietStep_tryAutoClose|apply quietStep_log]. }
      destruct sf; by apply seqStep_quiet.
    + intros Hinv _. apply cleared_emit. by apply tryAutoClose_clears.
  - rewrite (bool_decide_eq_false_2 (None = Some true)) by done.
    rewrite (bool_decide_eq_false_2 (None = Some false)) by done. run_task.
    eexists. split_and!; [done| |].
    + assert (quietStep h (log Error (Text "Unknow error") (tryAutoClose h))) as Q.
      { eapply quietStep_trans; [apply quietStep_tryAutoClose|apply quietStep_log]. }
      destruct sf; by apply seqStep_quiet.
    + intros Hinv _. apply cleared_emit. by apply tryAutoClose_clears.
Qed.
End Login2.

Lemma seqStep_beforeLogin sf p h : seqStep [] [] h (beforeLogin sf p h).
Proof.
  unfold beforeLogin.
  assert (seqStep [] [] h (setStatusFind sf h)) as S0.
  { split; [exists []; by rewrite app_nil_r|apply timerInv_setStatusFind]. }
  eapply seqStep_then_quiet; [exact S0|].
  eapply quietStep_trans; [apply quietStep_log|].
  eapply quietStep_trans; [apply quietStep_suspend|].
  eapply quietStep_trans; [apply quietStep_suspend|].
  eapply quietStep_trans; [apply quietStep_log|].
  eapply quietStep_trans; [apply quietStep_suspend|apply quietStep_startAutoClose].
Qed.

Lemma firstAnswer_rejection answers e :
  firstAnswer answers = Exc e → ∃ code, e = Rejection code.
Proof.
  induction answers as [|[v|code] answers IH]; [done| |]; simpl.
  - case_bool_decide; [exact IH|done].
  - intros [= <-]. by eexists.
Qed.

Lemma firstAnswer_not_false answers v : firstAnswer answers = Val v → v ≠ Some false.
Proof.
  induction answers as [|[v'|code] answers IH]; [done| |done]; simpl.
  case_bool_decide; [exact IH|]. by intros [= <-].
Qed.

Section LoginRun.
Variable asciiQr : string → string.

Lemma waitForLogin_full catchQR (sf : bool) p h :
  ∃ h', waitForLogin asciiQr catchQR sf p h = (h', loginOutcome p)
    ∧ seqStep (if sf then loginStatuses p else [])
              (if catchQR && bool_decide (catch (isAuthenticated p).2 None = Some false)
               then expectedCalls asciiQr None 0 (observed (scanRounds p)) else []) h h'
    ∧ (timerInv h → stops (loginOutcome p) → cleared h').
Proof.
  rewrite waitForLogin_unfold. unfold loginOutcome, loginStatuses.
  pose proof (seqStep_beforeLogin sf p h) as S0.
  destruct (loginOrScan_full asciiQr catchQR sf p (catch (isAuthenticated p).2 None)
              (beforeLogin sf p h)) as (h1 & -> & S1 & C1).
  pose proof (seqStep_trans _ _ _ _ _ _ _ S0 S1) as S01. cbn [app] in S01.
  destruct (scanOutcome p (catch (isAuthenticated p).2 None)) as [a|e|] eqn:Hscan.
  - destruct (finishLogin_full sf p a h1) as (h2 & -> & S2 & C2).
    exists h2. split_and!; [done| |].
    + pose proof (seqStep_trans _ _ _ _ _ _ _ S01 S2) as Hall.
      rewrite app_nil_r in Hall.
      destruct sf; [|exact Hall]. destruct a as [[|]|]; [exact Hall|..];
        by rewrite app_nil_r in *.
    + intros Hinv Hstop. apply C2; [|done]. by apply S01.
  - exists h1. split_and!; [done| |].
    + rewrite app_nil_r. exact S01.
    + intros Hinv Hstop. destruct e as [reason| | |]; [|done..].
      apply (C1 (proj2 S0 Hinv) reason eq_refl).
  - exists h1. split_and!; [done| |by intros _ []].
    rewrite app_nil_r. exact S01.
Qed.

(** X13. [waitForInChat] ends with the first answer of [isInsideChat] that
    is not [false]: it returns it, [null] included, or raises the probe's
    rejection; it never returns [false], and it reports no status and
    calls no QR observer. *)
Theorem waitForInChat_first_answer p h :
  (waitForInChat p h).2 = firstAnswer (chatAnswers p)
  ∧ (∀ inChat, (waitForInChat p h).2 = Val inChat → inChat ≠ Some false)
  ∧ reported (trace (waitForInChat p h).1) = reported (trace h)
  ∧ qrCalls (trace (waitForInChat p h).1) = qrCalls (trace h).
Proof.
  destruct (waitForInChat_first p h) as (h' & -> & Q). cbn [fst snd].
  destruct (emits_quiet _ _ Q) as (es & -> & Hs & Hq).
  split_and!; [done|apply firstAnswer_not_false| |].
  - by rewrite reported_app, Hs, app_nil_r.
  - by rewrite qrCalls_app, Hq, app_nil_r.
Qed.

(** X14. How [waitForLogin] ends depends only on the page's answers, not
    on the timer, the observers or the host: it is the outcome of the
    table [loginOutcome], which is [true], one of the three reasons
    ['Failed to read the QRCode'], ['Phone not connected'], ['Unknow error'],
    a rejection of [isInsideChat], or still polling. *)
Theorem waitForLogin_outcome catchQR sf p h :
  (waitForLogin asciiQr catchQR sf p h).2 = loginOutcome p
  ∧ (loginOutcome p = Val true
     ∨ loginOutcome p = Exc (ThrowStr "Failed to read the QRCode")
     ∨ loginOutcome p = Exc (ThrowStr "Phone not connected")
     ∨ loginOutcome p = Exc (ThrowStr "Unknow error")
     ∨ (∃ code, loginOutcome p = Exc (Rejection code))
     ∨ loginOutcome p = Starved).
Proof.
  destruct (waitForLogin_full catchQR sf p h) as (h' & -> & _). split; [done|].
  assert (chatOutcome p = Val true
          ∨ chatOutcome p = Exc (ThrowStr "Phone not connected")
          ∨ (∃ code, chatOutcome p = Exc (Rejection code))
          ∨ chatOutcome p = Starved) as Hchat.
  { unfold chatOutcome. destruct (firstAnswer (chatAnswers p)) as [v|e|] eqn:Hfirst.
    - destruct (truthy v); eauto.
    - destruct (firstAnswer_rejection _ _ Hfirst) as [code ->]. eauto.
    - eauto. }
  unfold loginOutcome, scanOutcome. case_bool_decide as Hfalse.
  - destruct (scanEnds _); [|eauto 10].
    destruct (catch (isAuthenticatedAgain p).2 None) as [[|]|]; cbn [finishOutcome];
      [|eauto 10..]. destruct Hchat as [ -> | [ -> | [ [code ->] | -> ] ] ]; eauto 10.
  - destruct (catch (isAuthenticated p).2 None) as [[|]|]; cbn [finishOutcome];
      [|done|eauto 10]. destruct Hchat as [ -> | [ -> | [ [code ->] | -> ] ] ]; eauto 10.
Qed.

(** X15. [waitForLogin] keeps at most one interval active, and when it
    returns or raises one of its own reasons, no interval is left and the
    handle is cleared. *)
Theorem waitForLogin_stops_timer catchQR sf p h :
  timerInv h →
  timerInv (waitForLogin asciiQr catchQR sf p h).1
  ∧ (stops (waitForLogin asciiQr catchQR sf p h).2 →
     autoCloseInterval (waitForLogin asciiQr catchQR sf p h).1 = None
     ∧ intervals (waitForLogin asciiQr catchQR sf p h).1 = []).
Proof.
  intros Hinv. destruct (waitForLogin_full catchQR sf p h) as (h' & -> & S & C).
  cbn [fst snd]. split; [by apply S|]. intros Hstop. by apply C.
Qed.

(** X16. The status events [waitForLogin] reports, [autocloseCalled]
    apart, are those of the table [loginStatuses] of the page's answers, in
    that order; none without an observer. *)
Theorem waitForLogin_statuses catchQR (sf : bool) p h :
  reported (trace (waitForLogin asciiQr catchQR sf p h).1)
  = reported (trace h) ++ (if sf then loginStatuses p else []).
Proof.
  destruct (waitForLogin_full catchQR sf p h) as (h' & -> & [Hemit _] & _).
  cbn [fst]. destruct Hemit as (es & -> & Hs & _). by rewrite reported_app, Hs.
Qed.

(** X17. [waitForLogin] calls the QR observer only in the scan branch:
    when the first probe does not say [false], or without an observer,
    never; else with the calls of the counter rule. *)
Theorem waitForLogin_qrCalls catchQR sf p h :
  qrCalls (trace (waitForLogin asciiQr catchQR sf p h).1)
  = qrCalls (trace h)
      ++ (if catchQR && bool_decide (catch (isAuthenticated p).2 None = Some false)
          then expectedCalls asciiQr None 0 (observed (scanRounds p)) else []).
Proof.
  destruct (waitForLogin_full catchQR sf p h) as (h' & -> & [Hemit _] & _).
  cbn [fst]. destruct Hemit as (es & -> & _ & Hq). by rewrite qrCalls_app, Hq.
Qed.

Lemma expectedCalls_distinct previous attempt codes :
  (∀ c rest, expectedCalls asciiQr previous attempt codes = c :: rest → previous ≠ Some c.2)
  ∧ (∀ i c1 c2,
       expectedCalls asciiQr previous attempt codes !! i = Some c1 →
       expectedCalls asciiQr previous attempt codes !! S i = Some c2 →
       c1.2 ≠ c2.2)
  ∧ length (expectedCalls asciiQr previous attempt codes) ≤ length codes.
Proof.
  revert previous attempt. induction codes as [|[q code] codes IH]; intros previous attempt.
  - simpl. split_and!; [done|done|lia].
  - cbn [expectedCalls]. case_decide as Hsame.
    + destruct (IH previous attempt) as (H1 & H2 & H3). split_and!; [done|done|simpl; lia].
    + destruct (IH (Some code) (S attempt)) as (H1 & H2 & H3). split_and!.
      * intros c rest [= <- _]. done.
      * intros [|i] c1 c2; cbn [lookup list_lookup].
        -- intros [= <-] Hc2. cbn [snd].
           destruct (expectedCalls asciiQr (Some code) (S attempt) codes) as [|c rest] eqn:E;
             [done|]. injection Hc2 as <-. intros Heq. by apply (H1 c rest eq_refl), f_equal.
        -- apply H2.
      * simpl. lia.
Qed.

(** X18. [waitForQrCodeScan] never calls the observer twice in a row with
    the same [urlCode], and makes at most one call per round. *)
Theorem waitForQrCodeScan_never_repeats catchQR rounds h :
  ∃ calls,
    qrCalls (trace (waitForQrCodeScan asciiQr catchQR rounds h).1) = qrCalls (trace h) ++ calls
    ∧ length calls ≤ length rounds
    ∧ ∀ i c1 c2, calls !! i = Some c1 → calls !! S i = Some c2 → c1.2 ≠ c2.2.
Proof.
  destruct (waitForQrCodeScan_seq asciiQr catchQR rounds h) as (h' & -> & [Hemit _]).
  cbn [fst]. destruct Hemit as (es & -> & _ & Hq). rewrite qrCalls_app, Hq.
  assert (length (observed rounds) ≤ length rounds) as Hobs.
  { clear. induction rounds as [|r rounds IH]; simpl; [lia|]. destruct (seen r); simpl; lia. }
  destruct (expectedCalls_distinct None 0 (observed rounds)) as (_ & Hadj & Hlen).
  destruct catchQR.
  - eexists. split_and!; [done|lia|exact Hadj].
  - exists []. split_and!; [done|simpl; lia|done].
Qed.
End LoginRun.

(** ** The further properties on concrete inputs *)

(** X1 on the directory with the tokens of [a] and [b]. *)
Lemma getSessionNames_tokens_witness :
  getSessionNames tokensDefaults tokensResolve twoTokens None = (Returns (Some ["a"; "b"]), []).
Proof.
  apply (getSessionNames_tokens tokensDefaults tokensResolve twoTokens None "./tokens"
           ["a"; "b"]).
  - reflexivity.
  - repeat constructor.
  - reflexivity.
Defined.

(** X2 on a directory that also holds the file [notes]. *)
Lemma getSessionNames_keeps_every_entry_witness :
  ∃ names,
    getSessionNames tokensDefaults tokensResolve mixedTokens None = (Returns (Some names), [])
    ∧ length names = 2
    ∧ ∀ i entry, ["a.data.json"; "notes"] !! i = Some entry → dotFree entry = true →
        names !! i = Some entry.
Proof.
  apply (getSessionNames_keeps_every_entry tokensDefaults tokensResolve mixedTokens None
           "./tokens" ["a.data.json"; "notes"]); reflexivity.
Defined.

(** X3 on a package without a token directory. *)
Lemma getSessionNames_never_raises_witness :
  (∃ names, getSessionNames tokensDefaults tokensResolve noTokens None
            = (Returns (Some names), []))
  ∨ (∃ e, getSessionNames tokensDefaults tokensResolve noTokens None
          = (Returns None, [ {| log_sink := 0; log_msg := "Error getAllTokens() -> ";
                                log_err := e |} ])).
Proof.
  apply (getSessionNames_never_raises tokensDefaults tokensResolve noTokens None 0).
  reflexivity.
Defined.

(** X4 with two tokens, both constructions fulfilling, [b] first. *)
Lemma initAllSessions_all_fulfil_witness :
  (initAllSessions tokensDefaults tokensResolve twoTokens createLate None ∅ [1; 0]).1.1
  = Returns (initAllSessions tokensDefaults tokensResolve twoTokens createLate None ∅ [1; 0]).1.2
  ∧ ∀ s, s ∈ ["a"; "b"] →
      is_Some ((initAllSessions tokensDefaults tokensResolve twoTokens createLate None ∅
                  [1; 0]).1.2 !! s).
Proof.
  apply (initAllSessions_all_fulfil tokensDefaults tokensResolve twoTokens createLate
           None ∅ [1; 0] ["a"; "b"]).
  - reflexivity.
  - set_solver.
  - intros [|[|j]] c Hc; [| |done]; injection Hc as <-; eexists; reflexivity.
  - intros [|[|j]] Hj; [set_solver..|simpl in Hj; lia].
Defined.

(** X5 with an empty directory. *)
Lemma initAllSessions_no_tokens_witness :
  initAllSessions tokensDefaults tokensResolve emptyTokens createLate None ∅ [0; 1]
  = (Returns ∅, ∅, []).
Proof.
  apply (initAllSessions_no_tokens tokensDefaults tokensResolve emptyTokens createLate
           None ∅ [0; 1]).
  reflexivity.
Defined.

(** X6 with two tokens, when only the construction of [a] has settled. *)
Lemma initAllSessions_waits_witness :
  (initAllSessions tokensDefaults tokensResolve twoTokens createLate None ∅ [0]).1.1 = Pending.
Proof.
  apply (initAllSessions_waits tokensDefaults tokensResolve twoTokens createLate
           None ∅ [0] ["a"; "b"] 1).
  - reflexivity.
  - set_solver.
  - intros [|[|j]] c _ Hc; [| |done]; injection Hc as <-; eexists; reflexivity.
  - simpl. lia.
  - set_solver.
Defined.

(** X7 with two tokens, when [b] fulfils and then [a] rejects. *)
Lemma initAllSessions_first_rejection_witness :
  (initAllSessions tokensDefaults tokensResolve twoTokens createFailingA None ∅
     ([1] ++ 0 :: [])).1.1
  = Throws (Rejection "boom").
Proof.
  eapply (initAllSessions_first_rejection tokensDefaults tokensResolve twoTokens
            createFailingA None ∅ ["a"; "b"] [1] 0 []).
  - reflexivity.
  - set_solver.
  - intros j c Hj Hc. apply list_elem_of_singleton in Hj as ->.
    injection Hc as <-. eexists. reflexivity.
  - reflexivity.
  - reflexivity.
Defined.

(** X9 with the sessions [a] and [b]. *)
Lemma createSession_twice_witness :
  (createSession createLate (λ _, "value") {[ "session" := VStr "b" ]}
     (createSession createLate (λ _, "value") {[ "session" := VStr "a" ]} ∅).2).2 !! "b"
  = Some {| wa_session := "b" |}.
Proof.
  apply (createSession_twice createLate (λ _, "value")
           {[ "session" := VStr "a" ]} {[ "session" := VStr "b" ]} "a" "b"
           {| wa_session := "a" |} {| wa_session := "b" |} ∅); done.
Defined.

(** X10 with [autoClose = 1500], which rounds to two seconds. *)
Lemma autoClose_fires_at_closingTick_witness :
  closeCalls (trace (suspend (replicate 2 (IntervalFires 0))
                       (startAutoClose (newHost 1500 false))))
  = closeCalls (trace (newHost 1500 false)) + 1.
Proof.
  apply (autoClose_fires_at_closingTick (newHost 1500 false) 2);
    [unfold MAX_SAFE_INTEGER; simpl; lia|reflexivity..].
Defined.

(** X11 on a host whose page has closed. *)
Lemma closed_page_is_left_alone_witness :
  closeCalls (trace (foldl timerOp (background PageClosed (newHost 5000 false))
                       [Start; Elapse (IntervalFires 0); TryClose]))
  = closeCalls (trace (background PageClosed (newHost 5000 false))).
Proof.
  apply (closed_page_is_left_alone (background PageClosed (newHost 5000 false))
           [Start; Elapse (IntervalFires 0); TryClose]).
  reflexivity.
Defined.

(** X12 on a new host with [autoClose = 5000]. *)
Lemma tryAutoClose_asks_every_time_witness :
  closeCalls (trace (tryAutoClose (tryAutoClose (newHost 5000 false))))
  = closeCalls (trace (newHost 5000 false)) + 2.
Proof.
  apply (tryAutoClose_asks_every_time (newHost 5000 false)). reflexivity.
Defined.

(** X15 on a page whose second probe says not authenticated. *)
Lemma waitForLogin_stops_timer_witness :
  timerInv (waitForLogin boxed true true (scanPage (Resolves (Some false)))
              (newHost 60000 false)).1.
Proof.
  destruct (waitForLogin_stops_timer boxed true true (scanPage (Resolves (Some false)))
              (newHost 60000 false)) as [Hinv _]; [reflexivity|exact Hinv].
Defined.

(** X21 on a directory with the tokens of [a] and [length], [a] first. *)
Lemma initAllSessions_length_witness :
  (initAllSessions tokensDefaults tokensResolve lengthToken createLate None ∅
     ([0] ++ 1 :: [])).1.1
  = Throws (RangeError "Invalid array length").
Proof.
  eapply (initAllSessions_length tokensDefaults tokensResolve lengthToken createLate None ∅
            ["a"; "length"] [0] 1 []).
  - reflexivity.
  - intros j c Hj Hc. apply list_elem_of_singleton in Hj as ->.
    injection Hc as <-. split; [done|]. eexists. reflexivity.
  - reflexivity.
  - reflexivity.
  - reflexivity.
Defined.

(** X20 with two tokens, both constructions fulfilling. *)
Lemma initAllSessions_returns_only_if_witness :
  ("length" ∉ ["a"; "b"])
  ∧ ∀ c, c ∈ (fanOut (spread tokensDefaults None) ["a"; "b"]).1 →
         ∃ w, settlement createLate (fanOut (spread tokensDefaults None) ["a"; "b"]).2 c
              = Resolves w.
Proof.
  eapply (initAllSessions_returns_only_if tokensDefaults tokensResolve twoTokens createLate
           None ∅ [0; 1] ["a"; "b"]); reflexivity.
Defined.

(** X19 on an empty registry. *)
Lemma createSession_length_witness :
  createSession createLate (λ _, "value") {[ "session" := VStr "length" ]} ∅
  = (Throws (RangeError "Invalid array length"), ∅).
Proof.
  apply (createSession_length createLate (λ _, "value") {[ "session" := VStr "length" ]}
           {| wa_session := "length" |} ∅); reflexivity.
Defined.
